(** * xref scraper: a shallow embedding of [src/scraper.ts]

    The scraper reads the definition files of the webref corpus and builds
    two indexes, one by term and one by series shortname.  This file embeds the
    pure core of [scraper.ts] (term normalization, mapping, filtering, the two
    aggregators and the driver's control flow) and states its properties.

    Modelling conventions.
    - A JavaScript string is a [string]: the sequence of the bytes of its
      UTF-8 encoding.  The characters the code tells apart (the double quote,
      the parentheses, LF and CR) are one byte each and occur in the bytes
      only as themselves; the line terminators U+2028 and U+2029 are the
      bytes E2 80 A8 and E2 80 A9; a substring is found at the same places
      in the bytes as in the characters.  The order of two strings by their
      bytes is their order by code units as long as no character beyond
      U+FFFF is compared with one from U+E000 on.
    - An object created with [Object.create(null)] and used as a dictionary
      is a [gmap string _]; a [Set<string>] consulted through [has] is a
      [gset string].
    - A mutable array passed to a callee (the [errorURIs] sink) is passed in
      and returned explicitly. *)

From Stdlib Require Import Ascii String List Bool Arith Lia.
From stdpp Require Import base option list gmap strings sorting.

Import ListNotations.
Local Open Scope bool_scope.

(** ** JavaScript string primitives used by the scraper *)

Module JS.

Definition dquote : ascii := Ascii.ascii_of_nat 34.
Definition lparen : ascii := Ascii.ascii_of_nat 40.
Definition rparen : ascii := Ascii.ascii_of_nat 41.

(** The bytes of the line terminators: LF and CR, and the three bytes of
    U+2028 (E2 80 A8) and of U+2029 (E2 80 A9). *)
Definition LF : ascii := Ascii.ascii_of_nat 10.
Definition CR : ascii := Ascii.ascii_of_nat 13.
Definition xE2 : ascii := Ascii.ascii_of_nat 226.
Definition x80 : ascii := Ascii.ascii_of_nat 128.
Definition xA8 : ascii := Ascii.ascii_of_nat 168.
Definition xA9 : ascii := Ascii.ascii_of_nat 169.

(** A line terminator stands at the head of [s]: there the pattern [.]
    does not match. *)
Definition lineTerminatorAt (s : string) : bool :=
  match s with
  | EmptyString => false
  | String c r =>
      Ascii.eqb c LF || Ascii.eqb c CR ||
      match r with
      | String c1 (String c2 _) =>
          Ascii.eqb c xE2 && Ascii.eqb c1 x80 && (Ascii.eqb c2 xA8 || Ascii.eqb c2 xA9)
      | _ => false
      end
  end.

(** [s.endsWith(t)]: [t] is a suffix of [s]. *)
Fixpoint endsWith (s t : string) : bool :=
  String.eqb s t ||
  match s with
  | EmptyString => false
  | String _ r => endsWith r t
  end.

(** [s.startsWith(t)]. *)
Definition startsWith (s t : string) : bool := String.prefix t s.

(** [s.slice(n)]: [s] without its first [n] characters. *)
Fixpoint slice (n : nat) (s : string) : string :=
  match n, s with
  | O, _ => s
  | S n', EmptyString => EmptyString
  | S n', String _ r => slice n' r
  end.

(** [s.replace(pat, rep)] for a string pattern [pat] and a replacement
    [rep] free of dollar patterns: the first occurrence of [pat] in [s],
    scanning from the left, is replaced. *)
Fixpoint replace (s pat rep : string) : string :=
  if String.prefix pat s then rep +:+ slice (String.length pat) s
  else match s with
       | EmptyString => EmptyString
       | String c r => String c (replace r pat rep)
       end.

(** The call of [replace] in the branch for enum values of
    [normalizeTerm]: a global replacement, by the empty string, of the
    pattern with two alternatives, a double quote at the start of the input
    and a double quote at its end.  The scan visits the positions from the
    left; at a position the first alternative matches a double quote at
    index 0 and the second a double quote that is the last character.  Each
    match is one character long and is dropped.  [atStart] says whether the
    position is index 0. *)
Fixpoint replaceQuotes (atStart : bool) (s : string) : string :=
  match s with
  | EmptyString => EmptyString
  | String c r =>
      if Ascii.eqb c dquote && (atStart || String.eqb r EmptyString)
      then replaceQuotes false r
      else String c (replaceQuotes false r)
  end.

(** Matching [.*\)] at the head of [s], greedy with backtracking: the result
    is what follows the match.  The star first tries to take one more
    character, which it can where no line terminator stands; when the rest
    then fails, it gives the character back and the closing parenthesis is
    tried on it.  A character of several bytes is taken byte by byte: none of
    its bytes is a parenthesis and none after the first starts a line
    terminator. *)
Fixpoint matchDotsClose (s : string) : option string :=
  match s with
  | EmptyString => None
  | String c r =>
      if lineTerminatorAt (String c r) then None
      else match matchDotsClose r with
           | Some rest => Some rest
           | None => if Ascii.eqb c rparen then Some r else None
           end
  end.

(** Matching [.+\)] at the head of [s]. *)
Definition matchArgs (s : string) : option string :=
  match s with
  | EmptyString => None
  | String c r => if lineTerminatorAt (String c r) then None else matchDotsClose r
  end.

(** [/\(.+\)/.exec(s)]: the leftmost position where the pattern matches;
    the result is the text before the match and the text after it. *)
Fixpoint execArgs (s : string) : option (string * string) :=
  match s with
  | EmptyString => None
  | String c r =>
      match (if Ascii.eqb c lparen then matchArgs r else None) with
      | Some rest => Some (EmptyString, rest)
      | None =>
          match execArgs r with
          | Some (before, rest) => Some (String c before, rest)
          | None => None
          end
      end
  end.

(** [/\(.+\)/.test(s)]. *)
Definition testArgs (s : string) : bool :=
  match execArgs s with Some _ => true | None => false end.

(** [s.replace(/\(.+\)/, '()')]. *)
Definition replaceArgs (s : string) : string :=
  match execArgs s with
  | Some (before, rest) => before +:+ "()" +:+ rest
  | None => s
  end.

End JS.

(** ** Term normalization *)

(** [normalizeTerm(term, type)] *)
Definition normalizeTerm (term type : string) : string :=
  if String.eqb type "enum-value" then JS.replaceQuotes true term
  else if String.eqb type "method" && negb (JS.endsWith term ")") then term +:+ "()"
  else term.

(** ** Data model *)

(** One definition of a webref file ([interface WebrefDfn]).  The field
    [heading], an object the scraper never reads, is left out. *)
Module WebrefDfn.
Record t := mk {
  id : string;
  href : string;
  linkingText : list string;
  localLinkingText : list string;
  type : string;
  for_ : list string;
  access : string;
  informative : bool;
  definedIn : string
}.
End WebrefDfn.

(** The definitions of one specification ([interface DfnSource]). *)
Module DfnSource.
Record t := mk {
  series : string;
  spec : string;
  url : string;
  dfns : list WebrefDfn.t
}.
End DfnSource.

(** What [mapDefinition] returns ([type ParsedDataEntry]).  The property
    [for] is [undefined] ([None]) when the definition has no scope. *)
Module ParsedDataEntry.
Record t := mk {
  term : string;
  isExported : bool;
  type : string;
  spec : string;
  shortname : string;
  status : string;
  uri : string;
  normative : bool;
  for_ : option (list string)
}.

#[global] Instance eq_dec : EqDecision t.
Proof. solve_decision. Defined.
End ParsedDataEntry.

(** An element of the term index: an entry without [term] and [isExported]
    (the rest object of the destructuring in [updateDataByTerm]). *)
Module TermData.
Record t := mk {
  type : string;
  spec : string;
  shortname : string;
  status : string;
  uri : string;
  normative : bool;
  for_ : option (list string)
}.

Definition of_entry (e : ParsedDataEntry.t) : t :=
  {| type := ParsedDataEntry.type e;
     spec := ParsedDataEntry.spec e;
     shortname := ParsedDataEntry.shortname e;
     status := ParsedDataEntry.status e;
     uri := ParsedDataEntry.uri e;
     normative := ParsedDataEntry.normative e;
     for_ := ParsedDataEntry.for_ e |}.
End TermData.

(** An element of the index by shortname: an entry without [shortname] and
    [isExported] (the rest object of the destructuring in
    [updateDataBySpec]). *)
Module SpecData.
Record t := mk {
  term : string;
  type : string;
  spec : string;
  status : string;
  uri : string;
  normative : bool;
  for_ : option (list string)
}.

Definition of_entry (e : ParsedDataEntry.t) : t :=
  {| term := ParsedDataEntry.term e;
     type := ParsedDataEntry.type e;
     spec := ParsedDataEntry.spec e;
     status := ParsedDataEntry.status e;
     uri := ParsedDataEntry.uri e;
     normative := ParsedDataEntry.normative e;
     for_ := ParsedDataEntry.for_ e |}.
End SpecData.

Abbreviation DataByTerm := (gmap string (list TermData.t)).
Abbreviation DataBySpec := (gmap string (list SpecData.t)).

(** [if (!data[key]) data[key] = []; data[key].push(value)] *)
Definition push {A : Type} (key : string) (value : A)
    (data : gmap string (list A)) : gmap string (list A) :=
  <[key := default [] (data !! key) ++ [value]]> data.

(** Modelled from the spec: [uniq] of [src/utils.ts], which is not among the
    sources.  The spec (section 4.3) has it deduplicate by full structural
    equality and keep the order of first occurrences.  [seen] holds the
    elements already emitted. *)
Fixpoint uniqFrom {A : Type} `{EqDecision A} (seen l : list A) : list A :=
  match l with
  | [] => []
  | x :: l' =>
      if decide (x ∈ seen) then uniqFrom seen l'
      else x :: uniqFrom (x :: seen) l'
  end.

Definition uniq {A : Type} `{EqDecision A} (items : list A) : list A :=
  uniqFrom [] items.

(** An entry of the registry [index.json] (the interfaces [SpecVersion],
    [SpecSeries] and [SpecsJSON] local to [getSpecsData]). *)
Module SpecVersion.
Record t := mk { url : string }.
End SpecVersion.

Module SpecSeries.
Record t := mk { shortname : string; currentSpecification : string }.
End SpecSeries.

Module SpecsJSON.
Record t := mk {
  url : string;
  shortname : string;
  nightly : SpecVersion.t;
  release : option SpecVersion.t;
  series : SpecSeries.t;
  title : string;
  dfns : option string
}.
End SpecsJSON.

(** A value of the spec map (the object literal assigned to
    [specMap[entry.shortname]]). *)
Module SpecInfo.
Record t := mk { url : string; title : string; shortname : string }.
End SpecInfo.

(** What the loop of [main] works on: the two indexes and the error list. *)
Module Run.
Record t := mk {
  dataByTerm : DataByTerm;
  dataBySpec : DataBySpec;
  errorURIs : list string
}.
End Run.

(** How a call of [main] ends. *)
Inductive Outcome :=
| NothingToUpdate
    (* [return false]: nothing is written *)
| Exit (code : nat) (errorURIs : list string)
    (* [process.exit(code)] after the errors are logged: nothing is written *)
| Written (xref : DataByTerm) (specs : DataBySpec) (specmap : gmap string SpecInfo.t)
    (* the three [writeFile] calls, then [return true] *).

(** A string as a condition: the empty string is falsy. *)
Definition truthy (s : string) : bool := negb (String.eqb s "").

(** ** The scraper *)

Section Scraper.

(** The two sets of [src/constants.ts], which is not among the sources. *)
Variable SUPPORTED_TYPES : gset string.
Variable CSS_TYPES_INPUT : gset string.

(** [Set.prototype.has] *)
Definition has (s : gset string) (x : string) : bool := bool_decide (x ∈ s).

(** The [normalizedType] of [mapDefinition]. *)
Definition normalizedType (dfn : WebrefDfn.t) : string :=
  if has CSS_TYPES_INPUT (WebrefDfn.type dfn)
  then "css-" +:+ WebrefDfn.type dfn
  else WebrefDfn.type dfn.

(** [mapDefinition(dfn, term, spec, series, specurl)] *)
Definition mapDefinition (dfn : WebrefDfn.t) (term spec series specurl : string)
    : ParsedDataEntry.t :=
  {| ParsedDataEntry.term := normalizeTerm term (normalizedType dfn);
     ParsedDataEntry.isExported := String.eqb (WebrefDfn.access dfn) "public";
     ParsedDataEntry.type := normalizedType dfn;
     ParsedDataEntry.spec := spec;
     ParsedDataEntry.shortname := series;
     ParsedDataEntry.status := "current";
     ParsedDataEntry.uri := JS.replace (WebrefDfn.href dfn) specurl "";
     ParsedDataEntry.normative := negb (WebrefDfn.informative dfn);
     ParsedDataEntry.for_ :=
       if Nat.ltb 0 (length (WebrefDfn.for_ dfn))
       then Some (WebrefDfn.for_ dfn) else None |}.

(** The list [termData] that the two nested loops of [parseData] build. *)
Definition termDataOf (source : DfnSource.t) : list ParsedDataEntry.t :=
  flat_map
    (fun dfn =>
       map (fun term =>
              mapDefinition dfn term (DfnSource.spec source)
                (DfnSource.series source) (DfnSource.url source))
           (WebrefDfn.linkingText dfn))
    (DfnSource.dfns source).

(** The predicate of the [filter] call in [parseData]. *)
Definition keep (term : ParsedDataEntry.t) : bool :=
  ParsedDataEntry.isExported term && has SUPPORTED_TYPES (ParsedDataEntry.type term).

(** [parseData(source, errorURIs)].  The array [errorURIs] is a parameter
    the callee could grow; the function returns its value on exit next to
    the result. *)
Definition parseData (source : DfnSource.t) (errorURIs : list string)
    : list ParsedDataEntry.t * list string :=
  let termData := termDataOf source in
  let filtered := List.filter keep termData in
  (uniq filtered, errorURIs).

(** One iteration of the loop of [updateDataByTerm]. *)
Definition addByTerm (data : DataByTerm) (entry : ParsedDataEntry.t) : DataByTerm :=
  let term := ParsedDataEntry.term entry in
  let termData := TermData.of_entry entry in
  let data := push term termData data in
  if String.eqb (TermData.type termData) "method" && JS.testArgs term
  then
    let methodWithoutArgs := JS.replaceArgs term in
    push methodWithoutArgs termData data
  else data.

(** [updateDataByTerm(terms, data)] *)
Definition updateDataByTerm (terms : list ParsedDataEntry.t) (data : DataByTerm)
    : DataByTerm :=
  fold_left addByTerm terms data.

(** One iteration of the loop of [updateDataBySpec]. *)
Definition addBySpec (data : DataBySpec) (entry : ParsedDataEntry.t) : DataBySpec :=
  push (ParsedDataEntry.shortname entry) (SpecData.of_entry entry) data.

(** [updateDataBySpec(terms, data)] *)
Definition updateDataBySpec (terms : list ParsedDataEntry.t) (data : DataBySpec)
    : DataBySpec :=
  fold_left addBySpec terms data.

(** The registry part of [getSpecsData]: the spec map and the sources, in
    the order of the registry.  [readDfns name] stands for the [dfns]
    property of the parsed file [name] of the input directory.  The sorted
    list [urls], which [main] does not use, is not built. *)
Variable readDfns : string -> list WebrefDfn.t.

Definition specInfoOf (entry : SpecsJSON.t) : SpecInfo.t :=
  let nightly := SpecVersion.url (SpecsJSON.nightly entry) in
  {| SpecInfo.url :=
       if truthy nightly then nightly
       else match SpecsJSON.release entry with
            | Some release => SpecVersion.url release
            | None => SpecsJSON.url entry
            end;
     SpecInfo.title := SpecsJSON.title entry;
     SpecInfo.shortname := SpecsJSON.shortname entry |}.

Definition addEntry (acc : gmap string SpecInfo.t * list DfnSource.t)
    (entry : SpecsJSON.t) : gmap string SpecInfo.t * list DfnSource.t :=
  let '(specMap, dfnSources) := acc in
  let dfnSources :=
    match SpecsJSON.dfns entry with
    | Some name =>
        if truthy name then
          dfnSources ++
            [ {| DfnSource.series := SpecSeries.shortname (SpecsJSON.series entry);
                 DfnSource.spec := SpecsJSON.shortname entry;
                 DfnSource.url := SpecVersion.url (SpecsJSON.nightly entry);
                 DfnSource.dfns := readDfns name |} ]
        else dfnSources
    | None => dfnSources
    end in
  (<[SpecsJSON.shortname entry := specInfoOf entry]> specMap, dfnSources).

Definition getSpecsData (data : list SpecsJSON.t)
    : gmap string SpecInfo.t * list DfnSource.t :=
  fold_left addEntry data (∅, []).

(** The body of the loop of [main] over [dfnSources].  The [catch] clause
    logs and rethrows; with sources of the declared types nothing in the
    [try] block throws. *)
Definition processSource (run : Run.t) (source : DfnSource.t) : Run.t :=
  let '(terms, errorURIs) := parseData source (Run.errorURIs run) in
  {| Run.dataByTerm := updateDataByTerm terms (Run.dataByTerm run);
     Run.dataBySpec := updateDataBySpec terms (Run.dataBySpec run);
     Run.errorURIs := errorURIs |}.

Definition processSources (dfnSources : list DfnSource.t) (run : Run.t) : Run.t :=
  fold_left processSource dfnSources run.

(** The end of [main], from the test of [errorURIs.length] on. *)
Definition finish (run : Run.t) (specMap : gmap string SpecInfo.t) : Outcome :=
  if Nat.ltb 0 (length (Run.errorURIs run))
  then Exit 1 (Run.errorURIs run)
  else Written (Run.dataByTerm run) (Run.dataBySpec run) specMap.

(** [main(options)] on the path where none of its awaited operations fails.
    [forceUpdate] is the option of that name ([None] when the caller leaves
    it out, which the defaults turn into [false]); [hasUpdated] is what
    [updateInputSource] resolved to; [data] is the parsed registry and
    [readDfns] the definitions files as read.  The paths on which the update,
    a read or a write fails are in [mainAsync] below. *)
Definition main (forceUpdate : option bool) (hasUpdated : bool)
    (data : list SpecsJSON.t) : Outcome :=
  let forceUpdate := default false forceUpdate in
  if negb hasUpdated && negb forceUpdate then NothingToUpdate
  else
    let '(specMap, dfnSources) := getSpecsData data in
    let run :=
      processSources dfnSources
        {| Run.dataByTerm := ∅; Run.dataBySpec := ∅; Run.errorURIs := [] |} in
    finish run specMap.

End Scraper.

(** ** What the spec says of quote stripping, as functions *)

(** "Strip one leading double-quote character if present." *)
Definition stripLeadingQuote (s : string) : string :=
  match s with
  | EmptyString => EmptyString
  | String c r => if Ascii.eqb c JS.dquote then r else s
  end.

(** "Strip one trailing double-quote character if present." *)
Fixpoint stripTrailingQuote (s : string) : string :=
  match s with
  | EmptyString => EmptyString
  | String c EmptyString => if Ascii.eqb c JS.dquote then EmptyString else s
  | String c r => String c (stripTrailingQuote r)
  end.

(** The one-character string made of a double quote. *)
Definition quote : string := String JS.dquote EmptyString.

(** A string that neither begins nor ends with a double quote. *)
Definition quoteFree (s : string) : Prop :=
  JS.startsWith s quote = false ∧ JS.endsWith s quote = false.

(** ** What the spec says of argument lists, as predicates *)

(** No line terminator stands anywhere in [s]. *)
Fixpoint noLineTerminator (s : string) : bool :=
  match s with
  | EmptyString => true
  | String c r => negb (JS.lineTerminatorAt (String c r)) && noLineTerminator r
  end.

(** The term contains an argument list: an opening parenthesis, at least one
    character on the same line, a closing parenthesis. *)
Definition hasArgumentList (term : string) : Prop :=
  ∃ before args rest,
    term = before +:+ "(" +:+ args +:+ ")" +:+ rest
    ∧ args ≠ "" ∧ noLineTerminator args = true.

(** The keys of the term index that receive an entry: the term, and for a
    method whose term passes the test of [updateDataByTerm] the term with its
    arguments removed. *)
Definition termKeys (entry : ParsedDataEntry.t) : list string :=
  let term := ParsedDataEntry.term entry in
  if String.eqb (ParsedDataEntry.type entry) "method" && JS.testArgs term
  then [term; JS.replaceArgs term]
  else [term].

(** [entry] is what [mapDefinition] makes of a linking text of a public
    definition of a supported type found in one of [dfnSources]. *)
Definition publicSupportedOrigin (SUPPORTED_TYPES CSS_TYPES_INPUT : gset string)
    (dfnSources : list DfnSource.t) (entry : ParsedDataEntry.t) : Prop :=
  ∃ source dfn alias,
    source ∈ dfnSources
    ∧ dfn ∈ DfnSource.dfns source
    ∧ alias ∈ WebrefDfn.linkingText dfn
    ∧ WebrefDfn.access dfn = "public"
    ∧ normalizedType CSS_TYPES_INPUT dfn ∈ SUPPORTED_TYPES
    ∧ entry = mapDefinition CSS_TYPES_INPUT dfn alias (DfnSource.spec source)
                (DfnSource.series source) (DfnSource.url source).

(** [pat] occurs in [s]. *)
Definition occursIn (pat s : string) : Prop := ∃ a b, s = a +:+ pat +:+ b.

(** The run wrote its three files. *)
Definition wroteArtifacts (outcome : Outcome) : bool :=
  match outcome with
  | Written _ _ _ => true
  | _ => false
  end.

(** The state [main] starts its loop from. *)
Definition emptyRun : Run.t :=
  {| Run.dataByTerm := ∅; Run.dataBySpec := ∅; Run.errorURIs := [] |}.

(** ** Sample data

    Values for the two sets of [constants.ts], used where a property is
    evaluated on concrete data, and a few definitions in the shape of the
    webref files. *)

Definition sampleSupportedTypes : gset string :=
  {[ "dfn"; "interface"; "method"; "attribute"; "enum-value"; "css-property" ]}.

Definition sampleCssTypes : gset string :=
  {[ "property"; "descriptor"; "value"; "function"; "at-rule"; "selector" ]}.

Definition domURL : string := "https://dom.spec.whatwg.org/".

(** The interface [Event] of the DOM standard. *)
Definition eventDfn : WebrefDfn.t :=
  {| WebrefDfn.id := "event";
     WebrefDfn.href := "https://dom.spec.whatwg.org/#event";
     WebrefDfn.linkingText := ["Event"];
     WebrefDfn.localLinkingText := [];
     WebrefDfn.type := "interface";
     WebrefDfn.for_ := [];
     WebrefDfn.access := "public";
     WebrefDfn.informative := false;
     WebrefDfn.definedIn := "heading" |}.

(** The same definition with a reference outside the specification's URL. *)
Definition strayDfn : WebrefDfn.t :=
  {| WebrefDfn.id := "event";
     WebrefDfn.href := "https://example.org/#event";
     WebrefDfn.linkingText := ["Event"];
     WebrefDfn.localLinkingText := [];
     WebrefDfn.type := "interface";
     WebrefDfn.for_ := [];
     WebrefDfn.access := "public";
     WebrefDfn.informative := false;
     WebrefDfn.definedIn := "heading" |}.

(** A method whose linking text spells out its arguments. *)
Definition fooDfn : WebrefDfn.t :=
  {| WebrefDfn.id := "dom-widget-foo";
     WebrefDfn.href := "https://dom.spec.whatwg.org/#dom-widget-foo";
     WebrefDfn.linkingText := ["foo(a, b)"];
     WebrefDfn.localLinkingText := [];
     WebrefDfn.type := "method";
     WebrefDfn.for_ := ["Widget"];
     WebrefDfn.access := "public";
     WebrefDfn.informative := false;
     WebrefDfn.definedIn := "pre" |}.

(** A definition of level 4 of the series css-cascade. *)
Definition inheritedValueDfn : WebrefDfn.t :=
  {| WebrefDfn.id := "inherited-value";
     WebrefDfn.href := "https://drafts.csswg.org/css-cascade-4/#inherited-value";
     WebrefDfn.linkingText := ["inherited value"];
     WebrefDfn.localLinkingText := [];
     WebrefDfn.type := "dfn";
     WebrefDfn.for_ := [];
     WebrefDfn.access := "public";
     WebrefDfn.informative := false;
     WebrefDfn.definedIn := "prose" |}.

(** A definition that is not exported. *)
Definition privateDfn : WebrefDfn.t :=
  {| WebrefDfn.id := "concept-node-insert";
     WebrefDfn.href := "https://dom.spec.whatwg.org/#concept-node-insert";
     WebrefDfn.linkingText := ["insert"];
     WebrefDfn.localLinkingText := [];
     WebrefDfn.type := "dfn";
     WebrefDfn.for_ := ["Node"];
     WebrefDfn.access := "private";
     WebrefDfn.informative := false;
     WebrefDfn.definedIn := "prose" |}.

(** A public definition of a type outside the sample of supported types. *)
Definition unsupportedDfn : WebrefDfn.t :=
  {| WebrefDfn.id := "abstract-opdef-clamp";
     WebrefDfn.href := "https://dom.spec.whatwg.org/#abstract-opdef-clamp";
     WebrefDfn.linkingText := ["clamp"];
     WebrefDfn.localLinkingText := [];
     WebrefDfn.type := "abstract-op";
     WebrefDfn.for_ := [];
     WebrefDfn.access := "public";
     WebrefDfn.informative := false;
     WebrefDfn.definedIn := "prose" |}.

Definition sourceOf (dfns : list WebrefDfn.t) : DfnSource.t :=
  {| DfnSource.series := "dom"; DfnSource.spec := "dom";
     DfnSource.url := domURL; DfnSource.dfns := dfns |}.

(** A source that holds the same definition twice. *)
Definition twiceSource : DfnSource.t := sourceOf [eventDfn; eventDfn].

(** A source with one definition that passes the filter and two that do not. *)
Definition mixedSource : DfnSource.t :=
  sourceOf [privateDfn; eventDfn; unsupportedDfn].

(** A source with a reference outside its URL. *)
Definition straySource : DfnSource.t := sourceOf [strayDfn].

Definition eventEntry : ParsedDataEntry.t :=
  mapDefinition sampleCssTypes eventDfn "Event" "dom" "dom" domURL.

Definition fooEntry : ParsedDataEntry.t :=
  mapDefinition sampleCssTypes fooDfn "foo(a, b)" "dom" "dom" domURL.

Definition cascadeEntry : ParsedDataEntry.t :=
  mapDefinition sampleCssTypes inheritedValueDfn "inherited value"
    "css-cascade-4" "css-cascade" "https://drafts.csswg.org/css-cascade-4/".

(** The registry entry of the DOM standard. *)
Definition domRegistryEntry : SpecsJSON.t :=
  {| SpecsJSON.url := "https://dom.spec.whatwg.org/";
     SpecsJSON.shortname := "dom";
     SpecsJSON.nightly := {| SpecVersion.url := domURL |};
     SpecsJSON.release := None;
     SpecsJSON.series :=
       {| SpecSeries.shortname := "dom"; SpecSeries.currentSpecification := "dom" |};
     SpecsJSON.title := "DOM Standard";
     SpecsJSON.dfns := Some "dfns/dom.json" |}.

(** A term wrapped in two pairs of double quotes. *)
Definition doublyQuoted : string :=
  quote +:+ quote +:+ "foo" +:+ quote +:+ quote.

(** ** The rest of the scraper: the update of the input and the list of URLs *)

(** [s.includes(t)] *)
Fixpoint includes (s t : string) : bool :=
  String.prefix t s ||
  match s with
  | EmptyString => false
  | String _ r => includes r t
  end.

(** [updateInputSource()].  The function spawns git and returns a promise
    that three handlers settle: the handler of the data of the standard
    output, the handler of the event [error] and the handler of the event
    [exit].  The model runs the handlers over the events in the order the
    process emits them. *)
Module Git.

(** The arguments of the git command; [inputDirExists] is what
    [existsSync(INPUT_DIR_BASE)] returns. *)
Definition args (inputDirExists : bool) : list string :=
  let shouldClone := negb inputDirExists in
  if shouldClone then ["clone"; "https://github.com/w3c/webref.git"]
  else ["pull"; "origin"; "master"].

(** What the child process emits.  The code of [exit] is [None] when a
    signal ended the process (the handler is then given [null]). *)
Inductive event :=
| OnData (data : string)
| OnError (message : string)
| OnExit (code : option nat).

(** What the promise is rejected with. *)
Inductive reason :=
| SpawnError (message : string)
| ExitedWith (code : option nat).

Inductive promise :=
| Pending
| Resolved (hasUpdated : bool)
| Rejected (why : reason).

(** The variable [hasUpdated] of the executor and the promise. *)
Record state := mk { hasUpdated : bool; settled : promise }.

Definition initial : state := {| hasUpdated := true; settled := Pending |}.

(** [resolve] and [reject] do nothing on a promise that is settled. *)
Definition settle (p new : promise) : promise :=
  match p with
  | Pending => new
  | _ => p
  end.

Definition handle (st : state) (ev : event) : state :=
  match ev with
  | OnData data =>
      {| hasUpdated := negb (includes data "Already up to date");
         settled := settled st |}
  | OnError message =>
      {| hasUpdated := hasUpdated st;
         settled := settle (settled st) (Rejected (SpawnError message)) |}
  | OnExit code =>
      {| hasUpdated := hasUpdated st;
         settled :=
           settle (settled st)
             (match code with
              | Some O => Resolved (hasUpdated st)
              | _ => Rejected (ExitedWith code)
              end) |}
  end.

Definition run (events : list event) (st : state) : state :=
  fold_left handle events st.

Definition updateInputSource (events : list event) : promise :=
  settled (run events initial).

End Git.

(** ** The driver with its failures *)

(** What [main] finds on disk.  The registry is [None] when [index.json]
    cannot be read or parsed.  A definitions file is unreadable when its read
    or [JSON.parse] fails, which [getSpecsData] lets through as an exception;
    it is malformed when it parses but [parseData] throws on its content (the
    definitions are missing, or a definition lacks [linkingText], or one with
    linking texts lacks [href] or [for]); otherwise it holds definitions of
    the interface [WebrefDfn].  [writable] says whether the three [writeFile]
    calls succeed. *)
Module Input.

Inductive content :=
| Unreadable
| Malformed
| Dfns (dfns : list WebrefDfn.t).

Record t := mk {
  registry : option (list SpecsJSON.t);
  file : string → content;
  writable : bool
}.

End Input.

(** The exception that leaves [main]. *)
Inductive Failure :=
| SyncFailed (why : Git.reason)
    (* [updateInputSource] rejected *)
| RegistryFailed
    (* [index.json] could not be read *)
| ReadFailed (name : string)
    (* a definitions file could not be read, in [getSpecsData] *)
| ProcessingFailed (spec : string)
    (* [parseData] threw on a source; rethrown by the loop of [main] *)
| WriteFailed
    (* a [writeFile] call failed *).

(** How the promise of [main] settles. *)
Inductive Completion :=
| Waits
    (* the promise of [updateInputSource] never settles *)
| Throws (failure : Failure)
| Returns (outcome : Outcome).

(** The definitions files [getSpecsData] reads, with the shortname of their
    entry, in the order of the registry. *)
Definition dfnsFiles (data : list SpecsJSON.t) : list (string * string) :=
  omap
    (λ entry,
       match SpecsJSON.dfns entry with
       | Some name => if truthy name then Some (name, SpecsJSON.shortname entry) else None
       | None => None
       end)
    data.

Definition isUnreadable (input : Input.t) (file : string * string) : bool :=
  match Input.file input (fst file) with
  | Input.Unreadable => true
  | _ => false
  end.

Definition isMalformed (input : Input.t) (file : string * string) : bool :=
  match Input.file input (fst file) with
  | Input.Malformed => true
  | _ => false
  end.

(** The definitions of the files that hold some. *)
Definition readDfnsOf (input : Input.t) (name : string) : list WebrefDfn.t :=
  match Input.file input name with
  | Input.Dfns dfns => dfns
  | _ => []
  end.

(** [main(options)] with its failures: [sync] is the promise of
    [updateInputSource].  A rejected update leaves [main] at its first
    [await]; the early return comes before any read; every read of
    [getSpecsData] comes before the loop, and the loop before the writes. *)
Definition mainAsync (SUPPORTED_TYPES CSS_TYPES_INPUT : gset string)
    (forceUpdate : option bool) (sync : Git.promise) (input : Input.t) : Completion :=
  match sync with
  | Git.Pending => Waits
  | Git.Rejected why => Throws (SyncFailed why)
  | Git.Resolved hasUpdated =>
      if negb hasUpdated && negb (default false forceUpdate)
      then Returns NothingToUpdate
      else
        match Input.registry input with
        | None => Throws RegistryFailed
        | Some data =>
            match List.find (isUnreadable input) (dfnsFiles data) with
            | Some file => Throws (ReadFailed (fst file))
            | None =>
                match List.find (isMalformed input) (dfnsFiles data) with
                | Some file => Throws (ProcessingFailed (snd file))
                | None =>
                    let outcome :=
                      main SUPPORTED_TYPES CSS_TYPES_INPUT (readDfnsOf input)
                        forceUpdate hasUpdated data in
                    if wroteArtifacts outcome && negb (Input.writable input)
                    then Throws WriteFailed
                    else Returns outcome
                end
            end
        end
  end.

(** The bytes of the line separator U+2028. *)
Definition lineSeparator : string :=
  String JS.xE2 (String JS.x80 (String JS.xA8 EmptyString)).

(** A method whose linking text has its arguments on two lines, and one whose
    argument is a line separator. *)
Definition wrappedDfn : WebrefDfn.t :=
  {| WebrefDfn.id := "dom-widget-set";
     WebrefDfn.href := "https://dom.spec.whatwg.org/#dom-widget-set";
     WebrefDfn.linkingText :=
       ["set(a," +:+ String JS.LF "b)"; "put(" +:+ lineSeparator +:+ ")"];
     WebrefDfn.localLinkingText := [];
     WebrefDfn.type := "method";
     WebrefDfn.for_ := ["Widget"];
     WebrefDfn.access := "public";
     WebrefDfn.informative := false;
     WebrefDfn.definedIn := "pre" |}.

Definition wrappedEntry : ParsedDataEntry.t :=
  mapDefinition sampleCssTypes wrappedDfn ("set(a," +:+ String JS.LF "b)")
    "dom" "dom" domURL.

Definition separatorEntry : ParsedDataEntry.t :=
  mapDefinition sampleCssTypes wrappedDfn ("put(" +:+ lineSeparator +:+ ")")
    "dom" "dom" domURL.





(** The source [getSpecsData] makes of a registry entry, when the entry names
    a definitions file. *)
Definition entrySource (readDfns : string → list WebrefDfn.t) (entry : SpecsJSON.t)
    : option DfnSource.t :=
  match SpecsJSON.dfns entry with
  | Some name =>
      if truthy name then
        Some {| DfnSource.series := SpecSeries.shortname (SpecsJSON.series entry);
                DfnSource.spec := SpecsJSON.shortname entry;
                DfnSource.url := SpecVersion.url (SpecsJSON.nightly entry);
                DfnSource.dfns := readDfns name |}
      else None
  | None => None
  end.

(** A method with three linking texts, two of them with arguments. *)
Definition overloadedDfn : WebrefDfn.t :=
  {| WebrefDfn.id := "dom-widget-bar";
     WebrefDfn.href := "https://dom.spec.whatwg.org/#dom-widget-bar";
     WebrefDfn.linkingText := ["bar(a)"; "bar(a, b)"; "bar()"];
     WebrefDfn.localLinkingText := [];
     WebrefDfn.type := "method";
     WebrefDfn.for_ := ["Widget"];
     WebrefDfn.access := "public";
     WebrefDfn.informative := false;
     WebrefDfn.definedIn := "pre" |}.

(** A registry entry with a release next to the nightly draft. *)
Definition cascadeRegistryEntry : SpecsJSON.t :=
  {| SpecsJSON.url := "https://www.w3.org/TR/css-cascade-4/";
     SpecsJSON.shortname := "css-cascade-4";
     SpecsJSON.nightly := {| SpecVersion.url := "https://drafts.csswg.org/css-cascade-4/" |};
     SpecsJSON.release := Some {| SpecVersion.url := "https://www.w3.org/TR/css-cascade-4/" |};
     SpecsJSON.series :=
       {| SpecSeries.shortname := "css-cascade";
          SpecSeries.currentSpecification := "css-cascade-4" |};
     SpecsJSON.title := "CSS Cascading and Inheritance Level 4";
     SpecsJSON.dfns := Some "dfns/css-cascade-4.json" |}.

(** A definition of a CSS property whose linking text is a quoted name. *)
Definition propertyDfn : WebrefDfn.t :=
  {| WebrefDfn.id := "propdef-quotes";
     WebrefDfn.href := "https://drafts.csswg.org/css-content-3/#propdef-quotes";
     WebrefDfn.linkingText := [quote +:+ "quotes" +:+ quote];
     WebrefDfn.localLinkingText := [];
     WebrefDfn.type := "property";
     WebrefDfn.for_ := [];
     WebrefDfn.access := "public";
     WebrefDfn.informative := false;
     WebrefDfn.definedIn := "table" |}.

(** ** Facts on strings *)

Section StringFacts.

Lemma str_app_nil_l (s : string) : "" +:+ s = s.
Proof. reflexivity. Qed.

Lemma str_app_cons (c : ascii) (a b : string) : String c a +:+ b = String c (a +:+ b).
Proof. reflexivity. Qed.

Lemma str_app_empty_r (s : string) : s +:+ "" = s.
Proof.
  induction s as [|c s IH]; [reflexivity|]. now rewrite str_app_cons, IH.
Qed.

Lemma str_app_assoc (a b c : string) : (a +:+ b) +:+ c = a +:+ (b +:+ c).
Proof.
  induction a as [|x a IH]; [reflexivity|]. now rewrite !str_app_cons, IH.
Qed.

Lemma str_length_app (a b : string) :
  String.length (a +:+ b) = String.length a + String.length b.
Proof.
  induction a as [|x a IH]; [reflexivity|]. rewrite str_app_cons. simpl. now rewrite IH.
Qed.

Lemma prefix_true_iff (p s : string) :
  String.prefix p s = true ↔ ∃ r, s = p +:+ r.
Proof.
  revert s. induction p as [|c p IH]; intros s.
  - destruct s; simpl; split; eauto.
  - destruct s as [|d s]; simpl.
    + split; [discriminate | intros [r Hr]; discriminate].
    + destruct (ascii_dec c d) as [->|Hcd].
      * rewrite IH. split; intros [r Hr]; exists r; rewrite str_app_cons in *; congruence.
      * split; [discriminate | intros [r Hr]; rewrite str_app_cons in Hr; congruence].
Qed.

Lemma slice_app (p r : string) : JS.slice (String.length p) (p +:+ r) = r.
Proof.
  induction p as [|c p IH]; [now destruct r|]. rewrite str_app_cons. exact IH.
Qed.

Lemma endsWith_nil (t : string) : JS.endsWith "" t = String.eqb "" t.
Proof. unfold JS.endsWith. apply orb_false_r. Qed.

Lemma endsWith_String (c : ascii) (r t : string) :
  JS.endsWith (String c r) t = String.eqb (String c r) t || JS.endsWith r t.
Proof. reflexivity. Qed.

Lemma endsWith_true_iff (s t : string) :
  JS.endsWith s t = true ↔ ∃ r, s = r +:+ t.
Proof.
  induction s as [|c s IH].
  - rewrite endsWith_nil, String.eqb_eq. split.
    + intros <-. now exists "".
    + intros [r Hr]. destruct r; [exact Hr | discriminate].
  - rewrite endsWith_String, orb_true_iff, String.eqb_eq, IH. split.
    + intros [<- | [r ->]]; [now exists "" | now exists (String c r)].
    + intros [[|d r] Hr]; [now left | right].
      rewrite str_app_cons in Hr. injection Hr as -> ->. now exists r.
Qed.

Lemma endsWith_app (a b : string) : JS.endsWith (a +:+ b) b = true.
Proof. apply endsWith_true_iff. now exists a. Qed.

(** The last character decides [endsWith] for a one-character suffix. *)
Lemma endsWith_char_cons (c d e : ascii) (s : string) :
  JS.endsWith (String c (String e s)) (String d "")
  = JS.endsWith (String e s) (String d "").
Proof.
  rewrite (endsWith_String c).
  destruct (String.eqb_spec (String c (String e s)) (String d "")) as [H|_];
    [discriminate | reflexivity].
Qed.

Lemma endsWith_char_single (c d : ascii) :
  JS.endsWith (String c "") (String d "") = Ascii.eqb c d.
Proof.
  rewrite endsWith_String, endsWith_nil.
  destruct (Ascii.eqb_spec c d) as [->|Hne].
  - now rewrite String.eqb_refl.
  - destruct (String.eqb_spec (String c "") (String d "")) as [H|_];
      [congruence | reflexivity].
Qed.

End StringFacts.

(** ** The normalizer *)

Section Normalizer.

Lemma replaceQuotes_false (s : string) :
  JS.replaceQuotes false s = stripTrailingQuote s.
Proof.
  induction s as [|c r IH]; [reflexivity|].
  destruct r as [|d r'].
  - simpl. rewrite andb_true_r. now destruct (Ascii.eqb c JS.dquote).
  - change (JS.replaceQuotes false (String c (String d r')))
      with (if Ascii.eqb c JS.dquote && (false || false)
            then JS.replaceQuotes false (String d r')
            else String c (JS.replaceQuotes false (String d r'))).
    rewrite andb_false_r, IH. reflexivity.
Qed.

(** The global replacement of the source is the spec's two strippings. *)
Lemma replaceQuotes_true (s : string) :
  JS.replaceQuotes true s = stripTrailingQuote (stripLeadingQuote s).
Proof.
  destruct s as [|c r]; [reflexivity|].
  unfold JS.replaceQuotes; fold JS.replaceQuotes. unfold stripLeadingQuote.
  rewrite orb_true_l, andb_true_r, replaceQuotes_false.
  destruct (Ascii.eqb c JS.dquote) eqn:Hc; [reflexivity|].
  destruct r as [|d r']; simpl; now rewrite ?Hc.
Qed.

Lemma stripTrailingQuote_length (s : string) :
  String.length (stripTrailingQuote s) ≤ String.length s.
Proof.
  induction s as [|c r IH]; [reflexivity|].
  destruct r as [|d r'].
  - simpl. destruct (Ascii.eqb c JS.dquote); simpl; lia.
  - change (stripTrailingQuote (String c (String d r')))
      with (String c (stripTrailingQuote (String d r'))).
    simpl in *. lia.
Qed.

Lemma stripTrailingQuote_fix (s : string) :
  stripTrailingQuote s = s ↔ JS.endsWith s quote = false.
Proof.
  unfold quote. induction s as [|c r IH]; [split; reflexivity|].
  destruct r as [|d r'].
  - rewrite endsWith_char_single. simpl.
    destruct (Ascii.eqb c JS.dquote); split; congruence.
  - rewrite endsWith_char_cons, <- IH.
    change (stripTrailingQuote (String c (String d r')))
      with (String c (stripTrailingQuote (String d r'))).
    split; congruence.
Qed.

Lemma startsWith_quote (c : ascii) (r : string) :
  JS.startsWith (String c r) quote = Ascii.eqb c JS.dquote.
Proof.
  unfold JS.startsWith.
  destruct (Ascii.eqb_spec c JS.dquote) as [->|Hne].
  - apply prefix_true_iff. now exists r.
  - destruct (String.prefix quote (String c r)) eqn:H; [|reflexivity].
    apply prefix_true_iff in H as [r' Hr']. unfold quote in Hr'.
    rewrite str_app_cons in Hr'. congruence.
Qed.

Lemma stripLeadingQuote_fix (s : string) :
  stripLeadingQuote s = s ↔ JS.startsWith s quote = false.
Proof.
  destruct s as [|c r]; [split; reflexivity|].
  rewrite startsWith_quote. unfold stripLeadingQuote.
  destruct (Ascii.eqb c JS.dquote); split; try congruence.
  intros H. apply (f_equal String.length) in H. simpl in H. lia.
Qed.

Lemma stripLeadingQuote_length (s : string) :
  String.length (stripLeadingQuote s) ≤ String.length s.
Proof.
  destruct s as [|c r]; [reflexivity|]. simpl.
  destruct (Ascii.eqb c JS.dquote); simpl; lia.
Qed.

(** Stripping a quote that is there removes it. *)
Lemma stripTrailingQuote_app (s : string) : stripTrailingQuote (s +:+ quote) = s.
Proof.
  induction s as [|c r IH]; [reflexivity|].
  rewrite str_app_cons. destruct r as [|d r'].
  - reflexivity.
  - rewrite str_app_cons in *.
    change (stripTrailingQuote (String c (String d (r' +:+ quote))))
      with (String c (stripTrailingQuote (String d (r' +:+ quote)))).
    now rewrite IH.
Qed.

Lemma stripLeadingQuote_app (s : string) : stripLeadingQuote (quote +:+ s) = s.
Proof. reflexivity. Qed.

(** Stripping twice changes nothing exactly when the first stripping left
    no quote at either end. *)
Lemma stripQuotes_fix (s : string) :
  stripTrailingQuote (stripLeadingQuote s) = s ↔ quoteFree s.
Proof.
  unfold quoteFree. rewrite <- stripLeadingQuote_fix, <- stripTrailingQuote_fix.
  split.
  - intros H.
    assert (Hl : stripLeadingQuote s = s).
    { destruct s as [|c r]; [reflexivity|]. simpl in *.
      destruct (Ascii.eqb c JS.dquote); [|reflexivity].
      pose proof (stripTrailingQuote_length r) as Hlen.
      rewrite H in Hlen. simpl in Hlen. lia. }
    rewrite Hl in H. now split.
  - intros [Hl Ht]. now rewrite Hl.
Qed.

Lemma normalizeTerm_enum (term : string) :
  normalizeTerm term "enum-value" = stripTrailingQuote (stripLeadingQuote term).
Proof. unfold normalizeTerm. simpl. apply replaceQuotes_true. Qed.

Lemma normalizeTerm_method (term : string) :
  normalizeTerm term "method"
  = if JS.endsWith term ")" then term else term +:+ "()".
Proof. unfold normalizeTerm. simpl. now destruct (JS.endsWith term ")"). Qed.

Lemma normalizeTerm_other (term kind : string) :
  kind ≠ "enum-value" → kind ≠ "method" → normalizeTerm term kind = term.
Proof.
  intros He Hm. unfold normalizeTerm.
  destruct (String.eqb_spec kind "enum-value") as [|_]; [contradiction|].
  destruct (String.eqb_spec kind "method") as [|_]; [contradiction|].
  reflexivity.
Qed.

Lemma endsWith_app_parens (term : string) : JS.endsWith (term +:+ "()") ")" = true.
Proof.
  change "()" with ("(" +:+ ")"). rewrite <- str_app_assoc. apply endsWith_app.
Qed.

Lemma normalizeTerm_method_idem (term : string) :
  normalizeTerm (normalizeTerm term "method") "method" = normalizeTerm term "method".
Proof.
  rewrite !normalizeTerm_method.
  destruct (JS.endsWith term ")") eqn:H.
  - now rewrite H.
  - now rewrite endsWith_app_parens.
Qed.

End Normalizer.

(** ** Properties of the normalizer *)

(** C3, counterexample.  For the kind enum-value, normalizing a term wrapped
    in two pairs of quotes removes one pair, and normalizing the result
    removes the other: the second normalization is not the identity. *)
Lemma normalizeTerm_not_idempotent :
  normalizeTerm (normalizeTerm doublyQuoted "enum-value") "enum-value"
  ≠ normalizeTerm doublyQuoted "enum-value".
Proof. vm_compute. discriminate. Qed.

(** C3, amended.  Normalizing a normalized term changes nothing exactly when
    the kind is not enum-value, or the normalized term neither begins nor ends
    with a double quote. *)
Theorem normalizeTerm_idempotent_iff (term kind : string) :
  normalizeTerm (normalizeTerm term kind) kind = normalizeTerm term kind
  ↔ (kind = "enum-value" → quoteFree (normalizeTerm term kind)).
Proof.
  destruct (decide (kind = "enum-value")) as [->|He].
  - rewrite (normalizeTerm_enum (normalizeTerm _ _)), stripQuotes_fix. tauto.
  - split; [tauto | intros _].
    destruct (decide (kind = "method")) as [->|Hm].
    + apply normalizeTerm_method_idem.
    + now rewrite !normalizeTerm_other.
Qed.

(** C4, counterexample.  The term made of one double quote is not empty, and
    its normalization for the kind enum-value is the empty string. *)
Lemma normalizeTerm_collapses_quote :
  quote ≠ "" ∧ normalizeTerm quote "enum-value" = "".
Proof. split; [discriminate | reflexivity]. Qed.

Lemma stripTrailingQuote_empty (s : string) :
  stripTrailingQuote s = "" ↔ s = "" ∨ s = quote.
Proof.
  destruct s as [|c [|d r]].
  - split; [now left | reflexivity].
  - unfold quote. simpl. destruct (Ascii.eqb_spec c JS.dquote) as [->|Hne].
    + split; [now right | reflexivity].
    + split; [discriminate | intros [H|H]; congruence].
  - change (stripTrailingQuote (String c (String d r)))
      with (String c (stripTrailingQuote (String d r))).
    split; [discriminate | intros [H|H]; discriminate].
Qed.

(** C4, amended.  The normalized term is the empty string exactly when the
    term is empty and the kind is not method, or the kind is enum-value and the
    term is one double quote or two double quotes. *)
Theorem normalizeTerm_empty_iff (term kind : string) :
  normalizeTerm term kind = ""
  ↔ (term = "" ∧ kind ≠ "method")
    ∨ (kind = "enum-value" ∧ (term = quote ∨ term = quote +:+ quote)).
Proof.
  destruct (decide (kind = "enum-value")) as [->|He].
  - rewrite normalizeTerm_enum, stripTrailingQuote_empty.
    destruct term as [|c r].
    + split; [intros _; left; split; [reflexivity | discriminate] | now left].
    + unfold stripLeadingQuote, quote.
      destruct (Ascii.eqb_spec c JS.dquote) as [->|Hne].
      * split.
        -- intros [-> | ->]; right; (split; [reflexivity|]); [now left | now right].
        -- intros [[H _] | [_ [H | H]]]; [discriminate | |];
             rewrite ?str_app_cons, ?str_app_nil_l in H; injection H as ->; [now left | now right].
      * split.
        -- intros [H | H]; [discriminate | congruence].
        -- intros [[H _] | [_ [H | H]]]; [discriminate | |];
             rewrite ?str_app_cons, ?str_app_nil_l in H; congruence.
  - destruct (decide (kind = "method")) as [->|Hm].
    + rewrite normalizeTerm_method. split.
      * destruct (JS.endsWith term ")") eqn:Hends.
        -- intros ->. discriminate Hends.
        -- intros H. apply (f_equal String.length) in H.
           rewrite str_length_app in H. simpl in H. lia.
      * intros [[_ H] | [H _]]; [contradiction | discriminate].
    + rewrite normalizeTerm_other by assumption. split.
      * intros ->. left. now split.
      * intros [[H _] | [H _]]; [assumption | contradiction].
Qed.

(** C5.  The normalizer's contract.  For the kind enum-value the result is the
    term with one leading and one trailing double quote stripped when present;
    for the kind method a term that does not end with a closing parenthesis
    gets the suffix "()" and a term that does is returned as it is; for every
    other kind the term is returned as it is.  The four examples of the
    contract evaluate as stated. *)
Theorem normalizeTerm_contract :
  (∀ term, normalizeTerm term "enum-value"
           = stripTrailingQuote (stripLeadingQuote term))
  ∧ normalizeTerm (quote +:+ "foo" +:+ quote) "enum-value" = "foo"
  ∧ normalizeTerm "foo" "enum-value" = "foo"
  ∧ (∀ term, JS.endsWith term ")" = false →
             normalizeTerm term "method" = term +:+ "()")
  ∧ (∀ term, JS.endsWith term ")" = true → normalizeTerm term "method" = term)
  ∧ normalizeTerm "bar" "method" = "bar()"
  ∧ normalizeTerm "bar()" "method" = "bar()"
  ∧ (∀ term kind, kind ≠ "enum-value" → kind ≠ "method" →
                  normalizeTerm term kind = term).
Proof.
  repeat split; try reflexivity.
  - apply normalizeTerm_enum.
  - intros term H. now rewrite normalizeTerm_method, H.
  - intros term H. now rewrite normalizeTerm_method, H.
  - intros term kind. apply normalizeTerm_other.
Qed.

(** ** The dictionaries *)

Section Push.
Context {A : Type}.
Implicit Types (data : gmap string (list A)) (key k : string) (value : A).

Lemma push_lookup key value data k :
  push key value data !! k
  = if decide (key = k) then Some (default [] (data !! key) ++ [value])
    else data !! k.
Proof. unfold push. apply lookup_insert. Qed.

Lemma push_lookup_eq key value data :
  push key value data !! key = Some (default [] (data !! key) ++ [value]).
Proof. rewrite push_lookup. now rewrite decide_True. Qed.

Lemma push_lookup_ne key value data k :
  key ≠ k → push key value data !! k = data !! k.
Proof. intros H. rewrite push_lookup. now rewrite decide_False. Qed.

(** The elements under a key after a [push]. *)
Lemma push_elements key value data k :
  default [] (push key value data !! k)
  = default [] (data !! k) ++ (if decide (key = k) then [value] else []).
Proof.
  rewrite push_lookup. destruct (decide (key = k)) as [->|Hne]; simpl.
  - reflexivity.
  - now rewrite app_nil_r.
Qed.

Lemma push_is_Some key value data k :
  is_Some (push key value data !! k) ↔ is_Some (data !! k) ∨ key = k.
Proof.
  rewrite push_lookup. destruct (decide (key = k)) as [->|Hne].
  - split; eauto.
  - split; [now left | now intros [H|H]].
Qed.

End Push.

(** ** The index by shortname *)

Section BySpec.
Implicit Types (data : DataBySpec) (entry : ParsedDataEntry.t).

Lemma updateDataBySpec_cons entry terms data :
  updateDataBySpec (entry :: terms) data = updateDataBySpec terms (addBySpec data entry).
Proof. reflexivity. Qed.

Lemma updateDataBySpec_elements terms data key :
  default [] (updateDataBySpec terms data !! key)
  = default [] (data !! key)
    ++ map SpecData.of_entry
         (filter (λ entry, ParsedDataEntry.shortname entry = key) terms).
Proof.
  revert data. induction terms as [|entry terms IH]; intros data.
  - simpl. now rewrite app_nil_r.
  - rewrite updateDataBySpec_cons, IH. unfold addBySpec.
    rewrite push_elements, filter_cons.
    destruct (decide (ParsedDataEntry.shortname entry = key)); simpl.
    + now rewrite <- app_assoc.
    + now rewrite app_nil_r.
Qed.

Lemma updateDataBySpec_is_Some terms data key :
  is_Some (updateDataBySpec terms data !! key)
  ↔ is_Some (data !! key)
    ∨ ∃ entry, entry ∈ terms ∧ ParsedDataEntry.shortname entry = key.
Proof.
  revert data. induction terms as [|entry terms IH]; intros data.
  - simpl. split; [now left | intros [H | (e & He & _)]; [assumption|]].
    now apply elem_of_nil in He.
  - rewrite updateDataBySpec_cons, IH. unfold addBySpec. rewrite push_is_Some.
    split.
    + intros [[H | H] | (e & He & Hk)].
      * now left.
      * right. exists entry. split; [apply elem_of_cons; now left | assumption].
      * right. exists e. split; [apply elem_of_cons; now right | assumption].
    + intros [H | (e & He & Hk)].
      * left. now left.
      * apply elem_of_cons in He as [-> | He].
        -- left. now right.
        -- right. now exists e.
Qed.

End BySpec.

(** ** The pattern for argument lists *)

Section ArgumentLists.

Lemma lineTerminatorAt_rparen (r : string) :
  JS.lineTerminatorAt (String JS.rparen r) = false.
Proof. now destruct r as [|c1 [|c2 r]]. Qed.

(** Whether a line terminator stands at the head of a string does not
    depend on what follows the next closing parenthesis. *)
Lemma lineTerminatorAt_before_rparen (a rest : string) :
  JS.lineTerminatorAt (a +:+ String JS.rparen rest) = JS.lineTerminatorAt a.
Proof.
  destruct a as [|c [|c1 [|c2 a]]]; rewrite ?str_app_cons, ?str_app_nil_l.
  - apply lineTerminatorAt_rparen.
  - destruct rest as [|c2 rest]; cbn [JS.lineTerminatorAt]; [reflexivity|].
    replace (Ascii.eqb JS.rparen JS.x80) with false by reflexivity.
    now rewrite andb_false_r.
  - cbn [JS.lineTerminatorAt].
    replace (Ascii.eqb JS.rparen JS.xA8 || Ascii.eqb JS.rparen JS.xA9)
      with false by reflexivity.
    now rewrite andb_false_r.
  - reflexivity.
Qed.

Lemma noLineTerminator_before_rparen (a rest : string) :
  noLineTerminator (a +:+ String JS.rparen rest)
  = noLineTerminator a && noLineTerminator (String JS.rparen rest).
Proof.
  induction a as [|c a IH]; [reflexivity|].
  rewrite str_app_cons. cbn [noLineTerminator].
  rewrite IH, <- (str_app_cons c a), lineTerminatorAt_before_rparen.
  now rewrite andb_assoc.
Qed.

Lemma noLineTerminator_prefix (a rest : string) :
  noLineTerminator (a +:+ ")" +:+ rest) = true → noLineTerminator a = true.
Proof.
  change (")" +:+ rest) with (String JS.rparen rest).
  rewrite noLineTerminator_before_rparen. intros H.
  now apply andb_true_iff in H as [? _].
Qed.

Lemma matchDotsClose_sound (s rest : string) :
  JS.matchDotsClose s = Some rest →
  ∃ a, s = a +:+ ")" +:+ rest ∧ noLineTerminator a = true.
Proof.
  induction s as [|c r IH]; [discriminate|].
  cbn [JS.matchDotsClose].
  destruct (JS.lineTerminatorAt (String c r)) eqn:Hc; [discriminate|].
  destruct (JS.matchDotsClose r) as [rest'|] eqn:Hr.
  - intros [= <-]. destruct (IH eq_refl) as (a & -> & Ha).
    exists (String c a). split; [reflexivity|].
    cbn [noLineTerminator]. rewrite Ha, andb_true_r.
    change (")" +:+ rest') with (String JS.rparen rest') in Hc.
    rewrite <- (str_app_cons c a), lineTerminatorAt_before_rparen in Hc.
    now rewrite Hc.
  - destruct (Ascii.eqb_spec c JS.rparen) as [->|_]; [|discriminate].
    intros [= <-]. now exists "".
Qed.

Lemma matchDotsClose_complete (a rest : string) :
  noLineTerminator a = true → is_Some (JS.matchDotsClose (a +:+ ")" +:+ rest)).
Proof.
  change (")" +:+ rest) with (String JS.rparen rest).
  induction a as [|c a IH]; intros Ha.
  - rewrite str_app_nil_l. cbn [JS.matchDotsClose].
    rewrite lineTerminatorAt_rparen, Ascii.eqb_refl.
    destruct (JS.matchDotsClose rest); eauto.
  - cbn [noLineTerminator] in Ha. apply andb_true_iff in Ha as [Hc Ha].
    apply negb_true_iff in Hc.
    rewrite str_app_cons. cbn [JS.matchDotsClose].
    rewrite <- (str_app_cons c a), lineTerminatorAt_before_rparen, Hc.
    destruct (IH Ha) as [rest' ->]. eauto.
Qed.

Lemma matchArgs_sound (s rest : string) :
  JS.matchArgs s = Some rest →
  ∃ args, s = args +:+ ")" +:+ rest ∧ args ≠ "" ∧ noLineTerminator args = true.
Proof.
  destruct s as [|c r]; [discriminate|]. unfold JS.matchArgs.
  destruct (JS.lineTerminatorAt (String c r)) eqn:Hc; [discriminate|].
  intros H. apply matchDotsClose_sound in H as (a & -> & Ha).
  exists (String c a). repeat split; [discriminate|].
  cbn [noLineTerminator]. rewrite Ha, andb_true_r.
  change (")" +:+ rest) with (String JS.rparen rest) in Hc.
  rewrite <- (str_app_cons c a), lineTerminatorAt_before_rparen in Hc.
  now rewrite Hc.
Qed.

Lemma matchArgs_complete (args rest : string) :
  args ≠ "" → noLineTerminator args = true →
  is_Some (JS.matchArgs (args +:+ ")" +:+ rest)).
Proof.
  destruct args as [|c a]; [congruence|]. intros _ Ha.
  cbn [noLineTerminator] in Ha. apply andb_true_iff in Ha as [Hc Ha].
  apply negb_true_iff in Hc.
  change (")" +:+ rest) with (String JS.rparen rest).
  rewrite str_app_cons. unfold JS.matchArgs.
  rewrite <- (str_app_cons c a), lineTerminatorAt_before_rparen, Hc.
  now apply matchDotsClose_complete.
Qed.

Lemma execArgs_String (c : ascii) (r : string) :
  JS.execArgs (String c r)
  = match (if Ascii.eqb c JS.lparen then JS.matchArgs r else None) with
    | Some rest => Some ("", rest)
    | None =>
        match JS.execArgs r with
        | Some (before, rest) => Some (String c before, rest)
        | None => None
        end
    end.
Proof. reflexivity. Qed.

Lemma execArgs_sound (s before rest : string) :
  JS.execArgs s = Some (before, rest) →
  ∃ args, s = before +:+ "(" +:+ args +:+ ")" +:+ rest
          ∧ args ≠ "" ∧ noLineTerminator args = true.
Proof.
  revert before. induction s as [|c r IH]; intros before; [discriminate|].
  rewrite execArgs_String.
  destruct (if Ascii.eqb c JS.lparen then JS.matchArgs r else None)
    as [rest'|] eqn:Hhead.
  - intros [= <- <-].
    destruct (Ascii.eqb_spec c JS.lparen) as [->|_]; [|discriminate].
    apply matchArgs_sound in Hhead as (args & -> & Hne & Hlt).
    now exists args.
  - destruct (JS.execArgs r) as [[before' rest'']|] eqn:Hr; [|discriminate].
    intros [= <- <-]. destruct (IH _ eq_refl) as (args & -> & Hne & Hlt).
    now exists args.
Qed.

Lemma execArgs_complete (s : string) :
  hasArgumentList s → is_Some (JS.execArgs s).
Proof.
  intros (before & args & rest & -> & Hne & Hlt).
  induction before as [|c before IH].
  - rewrite str_app_nil_l. change ("(" +:+ args +:+ ")" +:+ rest)
      with (String JS.lparen (args +:+ ")" +:+ rest)).
    rewrite execArgs_String, Ascii.eqb_refl.
    destruct (matchArgs_complete args rest Hne Hlt) as [rest' ->]. eauto.
  - rewrite str_app_cons, execArgs_String.
    destruct IH as [[before' rest'] ->].
    destruct (if Ascii.eqb c JS.lparen then JS.matchArgs _ else None); eauto.
Qed.

(** The test of the source is the spec's shape. *)
Lemma testArgs_iff (s : string) : JS.testArgs s = true ↔ hasArgumentList s.
Proof.
  unfold JS.testArgs. split.
  - destruct (JS.execArgs s) as [[before rest]|] eqn:H; [|discriminate].
    intros _. apply execArgs_sound in H as (args & ? & ? & ?).
    now exists before, args, rest.
  - intros H. apply execArgs_complete in H as [x ->]. reflexivity.
Qed.

(** What the replacement does to a term that passes the test. *)
Lemma replaceArgs_shape (s : string) :
  JS.testArgs s = true →
  ∃ before args rest,
    s = before +:+ "(" +:+ args +:+ ")" +:+ rest
    ∧ args ≠ "" ∧ noLineTerminator args = true
    ∧ JS.replaceArgs s = before +:+ "()" +:+ rest.
Proof.
  unfold JS.testArgs, JS.replaceArgs.
  destruct (JS.execArgs s) as [[before rest]|] eqn:H; [|discriminate].
  intros _. destruct (execArgs_sound _ _ _ H) as (args & ? & ? & ?).
  now exists before, args, rest.
Qed.

Lemma replaceArgs_no_match (s : string) :
  JS.testArgs s = false → JS.replaceArgs s = s.
Proof.
  unfold JS.testArgs, JS.replaceArgs.
  now destruct (JS.execArgs s) as [[before rest]|].
Qed.

(** The collapsed key is shorter than the term, hence another key. *)
Lemma replaceArgs_ne (s : string) : JS.testArgs s = true → JS.replaceArgs s ≠ s.
Proof.
  intros H. destruct (replaceArgs_shape s H) as (before & args & rest & Hs & Hne & _ & ->).
  intros Heq. apply (f_equal String.length) in Heq. rewrite Hs in Heq.
  rewrite !str_length_app in Heq. destruct args; [congruence|].
  simpl in Heq. lia.
Qed.

End ArgumentLists.

(** ** The index by term *)

Section ByTerm.
Implicit Types (data : DataByTerm) (entry : ParsedDataEntry.t).

Lemma updateDataByTerm_cons entry terms data :
  updateDataByTerm (entry :: terms) data = updateDataByTerm terms (addByTerm data entry).
Proof. reflexivity. Qed.

Lemma termKeys_NoDup entry : NoDup (termKeys entry).
Proof.
  unfold termKeys.
  destruct (String.eqb _ _ && JS.testArgs _) eqn:H.
  - apply andb_true_iff in H as [_ H]. apply replaceArgs_ne in H.
    apply NoDup_cons. split; [|apply NoDup_singleton].
    intros Hin. apply list_elem_of_singleton in Hin. congruence.
  - apply NoDup_singleton.
Qed.

Lemma addByTerm_elements data entry key :
  default [] (addByTerm data entry !! key)
  = default [] (data !! key)
    ++ (if decide (key ∈ termKeys entry) then [TermData.of_entry entry] else []).
Proof.
  unfold addByTerm, termKeys. cbn zeta.
  change (TermData.type (TermData.of_entry entry)) with (ParsedDataEntry.type entry).
  destruct (String.eqb _ _ && JS.testArgs _) eqn:H.
  - apply andb_true_iff in H as [_ H]. apply replaceArgs_ne in H.
    rewrite !push_elements.
    destruct (decide (ParsedDataEntry.term entry = key)) as [<-|Hk].
    + rewrite decide_False by congruence.
      rewrite decide_True by (apply elem_of_cons; now left).
      now rewrite app_nil_r.
    + destruct (decide (JS.replaceArgs (ParsedDataEntry.term entry) = key)) as [<-|Hk'].
      * rewrite decide_True
          by (apply elem_of_cons; right; apply elem_of_cons; now left).
        now rewrite app_nil_r.
      * rewrite decide_False; [now rewrite !app_nil_r|].
        intros Hin. apply elem_of_cons in Hin as [->|Hin]; [congruence|].
        apply list_elem_of_singleton in Hin. congruence.
  - rewrite push_elements.
    destruct (decide (ParsedDataEntry.term entry = key)) as [<-|Hk].
    + now rewrite decide_True by (apply list_elem_of_singleton; reflexivity).
    + rewrite decide_False; [reflexivity|].
      intros Hin. apply list_elem_of_singleton in Hin. congruence.
Qed.

Lemma updateDataByTerm_elements terms data key :
  default [] (updateDataByTerm terms data !! key)
  = default [] (data !! key)
    ++ map TermData.of_entry (filter (λ entry, key ∈ termKeys entry) terms).
Proof.
  revert data. induction terms as [|entry terms IH]; intros data.
  - simpl. now rewrite app_nil_r.
  - rewrite updateDataByTerm_cons, IH, addByTerm_elements, filter_cons.
    destruct (decide (key ∈ termKeys entry)); simpl.
    + now rewrite <- app_assoc.
    + now rewrite app_nil_r.
Qed.

End ByTerm.

(** ** Deduplication *)

Section Uniq.
Context {A : Type} `{EqDecision A}.
Implicit Types (x : A) (l seen : list A).

Lemma uniqFrom_elem seen l x : x ∈ uniqFrom seen l ↔ x ∈ l ∧ x ∉ seen.
Proof.
  revert seen. induction l as [|y l IH]; intros seen; simpl.
  - split; [intros H | intros [H _]]; now apply elem_of_nil in H.
  - destruct (decide (y ∈ seen)) as [Hy|Hy].
    + rewrite IH, elem_of_cons. split; [tauto|].
      intros [[->|H] Hs]; [contradiction | tauto].
    + rewrite !elem_of_cons, IH, elem_of_cons. split.
      * intros [->|[Hl Hs]]; [tauto|]. split; [tauto|]. intros H. apply Hs. now right.
      * intros [[->|Hl] Hs]; [now left|].
        destruct (decide (x = y)) as [->|Hne]; [now left | right].
        split; [assumption|]. intros [?|?]; contradiction.
Qed.

Lemma uniqFrom_NoDup seen l : NoDup (uniqFrom seen l).
Proof.
  revert seen. induction l as [|y l IH]; intros seen; simpl.
  - apply NoDup_nil_2.
  - destruct (decide (y ∈ seen)); [apply IH|].
    apply NoDup_cons. split; [|apply IH].
    rewrite uniqFrom_elem. intros [_ H]. apply H, elem_of_cons. now left.
Qed.

(** Only the elements of [seen] matter, not their order or number. *)
Lemma uniqFrom_ext seen seen' l :
  (∀ x, x ∈ seen ↔ x ∈ seen') → uniqFrom seen l = uniqFrom seen' l.
Proof.
  revert seen seen'. induction l as [|y l IH]; intros seen seen' Hext; simpl.
  - reflexivity.
  - destruct (decide (y ∈ seen)) as [Hy|Hy];
      destruct (decide (y ∈ seen')) as [Hy'|Hy'];
      try (exfalso; apply Hext in Hy || apply Hext in Hy'; contradiction).
    + now apply IH.
    + f_equal. apply IH. intros x. rewrite !elem_of_cons, Hext. reflexivity.
Qed.

Lemma uniqFrom_app seen l1 l2 :
  uniqFrom seen (l1 ++ l2) = uniqFrom seen l1 ++ uniqFrom (l1 ++ seen) l2.
Proof.
  revert seen. induction l1 as [|y l1 IH]; intros seen; simpl.
  - reflexivity.
  - destruct (decide (y ∈ seen)) as [Hy|Hy].
    + rewrite IH. f_equal. apply uniqFrom_ext. intros x.
      rewrite elem_of_cons, !elem_of_app. split; [tauto|].
      intros [->|H]; [now right | assumption].
    + rewrite IH. simpl. do 2 f_equal. apply uniqFrom_ext. intros x.
      rewrite elem_of_cons, !elem_of_app, elem_of_cons. tauto.
Qed.

Lemma uniq_elem l x : x ∈ uniq l ↔ x ∈ l.
Proof.
  unfold uniq. rewrite uniqFrom_elem. split; [tauto|].
  intros H. split; [assumption|]. apply not_elem_of_nil.
Qed.

Lemma uniq_NoDup l : NoDup (uniq l).
Proof. apply uniqFrom_NoDup. Qed.

(** An element comes out where its first occurrence stands: right after the
    distinct elements that precede it. *)
Lemma uniq_first_occurrence l1 x l2 :
  x ∉ l1 → uniq (l1 ++ x :: l2) = uniq l1 ++ x :: uniqFrom (x :: l1) l2.
Proof.
  intros Hx. unfold uniq. rewrite uniqFrom_app, app_nil_r. simpl.
  now rewrite decide_False.
Qed.

(** A later occurrence leaves no trace. *)
Lemma uniq_later_occurrence l1 x l2 :
  x ∈ l1 → uniq (l1 ++ x :: l2) = uniq (l1 ++ l2).
Proof.
  intros Hx. unfold uniq. rewrite !uniqFrom_app, app_nil_r. simpl.
  now rewrite decide_True.
Qed.

Lemma uniqFrom_sublist seen l : uniqFrom seen l `sublist_of` l.
Proof.
  revert seen. induction l as [|y l IH]; intros seen; simpl.
  - apply sublist_nil.
  - destruct (decide (y ∈ seen)).
    + apply sublist_cons. apply IH.
    + apply sublist_skip. apply IH.
Qed.

End Uniq.

(** ** Replacing the base URL *)

Section Replace.

Lemma replace_unfold (s pat rep : string) :
  JS.replace s pat rep
  = if String.prefix pat s then rep +:+ JS.slice (String.length pat) s
    else match s with
         | EmptyString => EmptyString
         | String c r => String c (JS.replace r pat rep)
         end.
Proof. now destruct s. Qed.

(** A base URL that starts the reference is cut off. *)
Lemma replace_prefix (base fragment : string) :
  JS.replace (base +:+ fragment) base "" = fragment.
Proof.
  rewrite replace_unfold.
  rewrite (proj2 (prefix_true_iff base (base +:+ fragment))) by now exists fragment.
  now rewrite slice_app.
Qed.

Lemma replace_startsWith (href base : string) :
  JS.startsWith href base = true →
  JS.replace href base "" = JS.slice (String.length base) href.
Proof.
  intros H. apply prefix_true_iff in H as [fragment ->].
  now rewrite replace_prefix, slice_app.
Qed.

(** A pattern that does not occur leaves the string as it is. *)
Lemma replace_absent (s pat rep : string) :
  ¬ occursIn pat s → JS.replace s pat rep = s.
Proof.
  induction s as [|c r IH]; intros Hno; rewrite replace_unfold.
  - destruct (String.prefix pat "") eqn:Hp; [|reflexivity].
    exfalso. apply Hno. apply prefix_true_iff in Hp as [b Hb]. now exists "", b.
  - destruct (String.prefix pat (String c r)) eqn:Hp.
    + exfalso. apply Hno. apply prefix_true_iff in Hp as [b Hb]. now exists "", b.
    + f_equal. apply IH. intros (a & b & ->). apply Hno.
      now exists (String c a), b.
Qed.

(** A pattern that occurs is replaced at one of its occurrences, wherever
    in the string that is. *)
Lemma replace_occurs (s pat rep : string) :
  occursIn pat s →
  ∃ a b, s = a +:+ pat +:+ b ∧ JS.replace s pat rep = a +:+ rep +:+ b.
Proof.
  induction s as [|c r IH]; intros Hocc; rewrite replace_unfold.
  - destruct Hocc as (a & b & Hs). destruct a; [|discriminate].
    rewrite str_app_nil_l in Hs.
    destruct pat; [|discriminate]. destruct b; [|discriminate].
    now exists "", "".
  - destruct (String.prefix pat (String c r)) eqn:Hp.
    + apply prefix_true_iff in Hp as [b Hb]. exists "", b.
      split; [assumption|]. rewrite !str_app_nil_l. f_equal.
      rewrite Hb. now rewrite slice_app.
    + destruct Hocc as (a & b & Hs). destruct a as [|d a].
      * rewrite str_app_nil_l in Hs.
        rewrite (proj2 (prefix_true_iff pat (String c r))) in Hp by now exists b.
        discriminate.
      * rewrite str_app_cons in Hs. injection Hs as <- Hr.
        destruct IH as (a' & b' & -> & ->); [now exists a, b|].
        now exists (String c a'), b'.
Qed.

End Replace.

(** ** The parser *)

Section Parser.
Variables SUPPORTED_TYPES CSS_TYPES_INPUT : gset string.
Implicit Types (source : DfnSource.t) (entry : ParsedDataEntry.t).

Lemma has_true (set : gset string) (x : string) : has set x = true ↔ x ∈ set.
Proof. unfold has. apply bool_decide_eq_true. Qed.

Lemma termDataOf_elem source entry :
  entry ∈ termDataOf CSS_TYPES_INPUT source
  ↔ ∃ dfn alias,
      dfn ∈ DfnSource.dfns source ∧ alias ∈ WebrefDfn.linkingText dfn
      ∧ entry = mapDefinition CSS_TYPES_INPUT dfn alias (DfnSource.spec source)
                  (DfnSource.series source) (DfnSource.url source).
Proof.
  unfold termDataOf. rewrite list_elem_of_In, in_flat_map. split.
  - intros (dfn & Hd & He). apply in_map_iff in He as (alias & <- & Ha).
    exists dfn, alias. now rewrite !list_elem_of_In.
  - intros (dfn & alias & Hd & Ha & ->). exists dfn.
    rewrite <- list_elem_of_In. split; [assumption|].
    apply in_map_iff. exists alias. now rewrite <- list_elem_of_In.
Qed.

Lemma keep_mapDefinition (dfn : WebrefDfn.t) (alias spec series url : string) :
  keep SUPPORTED_TYPES (mapDefinition CSS_TYPES_INPUT dfn alias spec series url) = true
  ↔ WebrefDfn.access dfn = "public"
    ∧ normalizedType CSS_TYPES_INPUT dfn ∈ SUPPORTED_TYPES.
Proof.
  unfold keep. cbn [mapDefinition ParsedDataEntry.isExported ParsedDataEntry.type].
  now rewrite andb_true_iff, String.eqb_eq, has_true.
Qed.

Lemma parseData_elem source (errorURIs : list string) entry :
  entry ∈ fst (parseData SUPPORTED_TYPES CSS_TYPES_INPUT source errorURIs)
  ↔ entry ∈ termDataOf CSS_TYPES_INPUT source ∧ keep SUPPORTED_TYPES entry = true.
Proof.
  unfold parseData. cbn [fst]. rewrite uniq_elem, !list_elem_of_In.
  apply filter_In.
Qed.

Lemma parseData_origin source (errorURIs : list string) entry :
  entry ∈ fst (parseData SUPPORTED_TYPES CSS_TYPES_INPUT source errorURIs)
  ↔ publicSupportedOrigin SUPPORTED_TYPES CSS_TYPES_INPUT [source] entry.
Proof.
  rewrite parseData_elem, termDataOf_elem. unfold publicSupportedOrigin. split.
  - intros [(dfn & alias & Hd & Ha & ->) Hk].
    apply keep_mapDefinition in Hk as [Hacc Hty].
    exists source, dfn, alias. repeat split; try assumption.
    now apply list_elem_of_singleton.
  - intros (src & dfn & alias & Hs & Hd & Ha & Hacc & Hty & ->).
    apply list_elem_of_singleton in Hs as ->. split.
    + now exists dfn, alias.
    + now apply keep_mapDefinition.
Qed.

Lemma publicSupportedOrigin_mono (l1 l2 : list DfnSource.t) entry :
  l1 ⊆ l2 →
  publicSupportedOrigin SUPPORTED_TYPES CSS_TYPES_INPUT l1 entry →
  publicSupportedOrigin SUPPORTED_TYPES CSS_TYPES_INPUT l2 entry.
Proof.
  intros Hsub (src & dfn & alias & Hs & H). exists src, dfn, alias.
  split; [now apply Hsub | assumption].
Qed.

End Parser.

(** ** The driver *)

Section Driver.
Variables SUPPORTED_TYPES CSS_TYPES_INPUT : gset string.
Variable readDfns : string → list WebrefDfn.t.
Implicit Types (source : DfnSource.t) (run : Run.t).

Local Abbreviation parse := (parseData SUPPORTED_TYPES CSS_TYPES_INPUT).
Local Abbreviation step := (processSource SUPPORTED_TYPES CSS_TYPES_INPUT).
Local Abbreviation steps := (processSources SUPPORTED_TYPES CSS_TYPES_INPUT).
Local Abbreviation origin := (publicSupportedOrigin SUPPORTED_TYPES CSS_TYPES_INPUT).

Lemma processSources_cons source dfnSources run :
  steps (source :: dfnSources) run = steps dfnSources (step run source).
Proof. reflexivity. Qed.

Lemma processSource_dataByTerm run source :
  Run.dataByTerm (step run source)
  = updateDataByTerm (fst (parse source (Run.errorURIs run))) (Run.dataByTerm run).
Proof. reflexivity. Qed.

Lemma processSource_dataBySpec run source :
  Run.dataBySpec (step run source)
  = updateDataBySpec (fst (parse source (Run.errorURIs run))) (Run.dataBySpec run).
Proof. reflexivity. Qed.

Lemma processSource_errorURIs run source :
  Run.errorURIs (step run source) = Run.errorURIs run.
Proof. reflexivity. Qed.

Lemma processSources_errorURIs dfnSources run :
  Run.errorURIs (steps dfnSources run) = Run.errorURIs run.
Proof.
  revert run. induction dfnSources as [|source dfnSources IH]; intros run.
  - reflexivity.
  - now rewrite processSources_cons, IH, processSource_errorURIs.
Qed.

Lemma origin_head source dfnSources entry :
  origin [source] entry → origin (source :: dfnSources) entry.
Proof.
  apply publicSupportedOrigin_mono. intros x Hx.
  apply list_elem_of_singleton in Hx as ->. apply elem_of_cons. now left.
Qed.

Lemma origin_tail source dfnSources entry :
  origin dfnSources entry → origin (source :: dfnSources) entry.
Proof.
  apply publicSupportedOrigin_mono. intros x Hx. apply elem_of_cons. now right.
Qed.

(** Whatever the loop adds to the term index comes from a public
    definition of a supported type. *)
Lemma processSources_byTerm_origin dfnSources run key (termData : TermData.t) :
  termData ∈ default [] (Run.dataByTerm (steps dfnSources run) !! key) →
  termData ∈ default [] (Run.dataByTerm run !! key)
  ∨ ∃ entry, origin dfnSources entry
             ∧ termData = TermData.of_entry entry ∧ key ∈ termKeys entry.
Proof.
  revert run. induction dfnSources as [|source dfnSources IH]; intros run H.
  - now left.
  - rewrite processSources_cons in H. apply IH in H as [H | (entry & Ho & He)].
    + rewrite processSource_dataByTerm, updateDataByTerm_elements in H.
      apply elem_of_app in H as [H | H]; [now left | right].
      apply list_elem_of_In, in_map_iff in H as (entry & <- & Hin).
      apply list_elem_of_In, list_elem_of_filter in Hin as [Hkey Hin].
      apply parseData_origin in Hin.
      exists entry. split; [now apply origin_head | now split].
    + right. exists entry. split; [now apply origin_tail | assumption].
Qed.

(** The same for the index by shortname. *)
Lemma processSources_bySpec_origin dfnSources run key (specData : SpecData.t) :
  specData ∈ default [] (Run.dataBySpec (steps dfnSources run) !! key) →
  specData ∈ default [] (Run.dataBySpec run !! key)
  ∨ ∃ entry, origin dfnSources entry
             ∧ specData = SpecData.of_entry entry
             ∧ key = ParsedDataEntry.shortname entry.
Proof.
  revert run. induction dfnSources as [|source dfnSources IH]; intros run H.
  - now left.
  - rewrite processSources_cons in H. apply IH in H as [H | (entry & Ho & He)].
    + rewrite processSource_dataBySpec, updateDataBySpec_elements in H.
      apply elem_of_app in H as [H | H]; [now left | right].
      apply list_elem_of_In, in_map_iff in H as (entry & <- & Hin).
      apply list_elem_of_In, list_elem_of_filter in Hin as [Hkey Hin].
      apply parseData_origin in Hin.
      exists entry. split; [now apply origin_head | now split].
    + right. exists entry. split; [now apply origin_tail | assumption].
Qed.

(** The test at the end of [main]: a non-empty list ends the run with exit
    code 1, and only an empty list lets the files be written. *)
Lemma finish_guard run (specMap : gmap string SpecInfo.t) :
  (Run.errorURIs run ≠ [] → finish run specMap = Exit 1 (Run.errorURIs run))
  ∧ (wroteArtifacts (finish run specMap) = true → Run.errorURIs run = []).
Proof.
  unfold finish. destruct (Run.errorURIs run) as [|uri errorURIs]; simpl.
  - split; [congruence | reflexivity].
  - split; [reflexivity | discriminate].
Qed.

(** The loop starts from an empty list and never grows it, so the test
    at the end of [main] never fires: a run that is not skipped writes. *)
Lemma main_skips_or_writes (forceUpdate : option bool) (hasUpdated : bool)
    (data : list SpecsJSON.t) :
  main SUPPORTED_TYPES CSS_TYPES_INPUT readDfns forceUpdate hasUpdated data
  = (if negb hasUpdated && negb (default false forceUpdate)
     then NothingToUpdate
     else
       let run := steps (snd (getSpecsData readDfns data)) emptyRun in
       Written (Run.dataByTerm run) (Run.dataBySpec run)
               (fst (getSpecsData readDfns data))).
Proof.
  unfold main. destruct (negb hasUpdated && negb (default false forceUpdate));
    [reflexivity|].
  destruct (getSpecsData readDfns data) as [specMap dfnSources]. cbn [fst snd].
  unfold finish. fold emptyRun. now rewrite processSources_errorURIs.
Qed.

End Driver.

(** ** Properties of the mapper and the driver *)

(** C1, the code where it departs from the spec.  The spec has the mapper
    record a URI-fix failure in the run's error list when the base URL is not
    a prefix of the reference, and return the reference as it is.  The
    reference of [strayDfn] does not start with the URL of its source.  The
    mapper returns the reference as it is; but the error list that
    [parseData] was given comes back as it was, whatever it held: nothing is
    recorded. *)
Theorem stray_href_is_not_recorded
    (SUPPORTED_TYPES CSS_TYPES_INPUT : gset string) (errorURIs : list string) :
  JS.startsWith (WebrefDfn.href strayDfn) (DfnSource.url straySource) = false
  ∧ ParsedDataEntry.uri
      (mapDefinition CSS_TYPES_INPUT strayDfn "Event" (DfnSource.spec straySource)
         (DfnSource.series straySource) (DfnSource.url straySource))
    = WebrefDfn.href strayDfn
  ∧ snd (parseData SUPPORTED_TYPES CSS_TYPES_INPUT straySource errorURIs) = errorURIs.
Proof. repeat split. Qed.

(** What [mapDefinition] makes of the reference: a base URL that starts it is
    cut off, a base URL that occurs nowhere in it leaves it as it is, and a
    base URL that occurs in it is cut out at an occurrence. *)
Lemma mapDefinition_uri (CSS_TYPES_INPUT : gset string) (dfn : WebrefDfn.t)
    (term spec series specurl : string) :
  let uri := ParsedDataEntry.uri (mapDefinition CSS_TYPES_INPUT dfn term spec series specurl) in
  (JS.startsWith (WebrefDfn.href dfn) specurl = true →
   uri = JS.slice (String.length specurl) (WebrefDfn.href dfn))
  ∧ (¬ occursIn specurl (WebrefDfn.href dfn) → uri = WebrefDfn.href dfn)
  ∧ (occursIn specurl (WebrefDfn.href dfn) →
     ∃ a b, WebrefDfn.href dfn = a +:+ specurl +:+ b ∧ uri = a +:+ b).
Proof.
  cbn [mapDefinition ParsedDataEntry.uri]. repeat split.
  - apply replace_startsWith.
  - apply replace_absent.
  - intros H. destruct (replace_occurs _ _ "" H) as (a & b & Ha & Hb).
    exists a, b. now rewrite Hb, str_app_nil_l.
Qed.

(** C2, the code where it departs from the spec.  The spec has a run in which
    a source triggered a URI-fix failure write none of its files and end with
    a failure.  The registry here holds one specification whose definitions
    file has a reference outside the specification's URL, and the run is
    forced.  The run writes its three files. *)
Theorem main_writes_despite_stray_href (SUPPORTED_TYPES CSS_TYPES_INPUT : gset string) :
  JS.startsWith (WebrefDfn.href strayDfn)
    (SpecVersion.url (SpecsJSON.nightly domRegistryEntry)) = false
  ∧ wroteArtifacts
      (main SUPPORTED_TYPES CSS_TYPES_INPUT (λ _, [strayDfn]) (Some true) true
         [domRegistryEntry]) = true.
Proof. split; [reflexivity|]. now rewrite main_skips_or_writes. Qed.

(** C10.  The parser hands back the error list it was given, and so does the
    loop of the driver over any list of sources. *)
Theorem parseData_leaves_errorURIs (SUPPORTED_TYPES CSS_TYPES_INPUT : gset string) :
  (∀ (source : DfnSource.t) (errorURIs : list string),
     snd (parseData SUPPORTED_TYPES CSS_TYPES_INPUT source errorURIs) = errorURIs)
  ∧ (∀ (dfnSources : list DfnSource.t) (run : Run.t),
       Run.errorURIs (processSources SUPPORTED_TYPES CSS_TYPES_INPUT dfnSources run)
       = Run.errorURIs run).
Proof.
  split; [reflexivity|]. intros. apply processSources_errorURIs.
Qed.

(** ** Properties of the parser and the two indexes *)

(** C6.  After a run over any sources, every element of the term index and
    every element of the index by shortname is the mapping, with its grouping
    key and [isExported] dropped, of a linking text of a definition whose
    access is public and whose type, after the css renaming, is in the
    supported set.  An entry that fails the test is not in the parser's
    result.  The test is made once, in [parseData], on the mapped entries, and
    the two aggregators are fed the parser's result.  Of a source with a
    private definition, a public interface and a public definition of an
    unsupported type, the interface alone reaches the indexes. *)
Theorem indexes_hold_public_supported_only
    (SUPPORTED_TYPES CSS_TYPES_INPUT : gset string) (dfnSources : list DfnSource.t) :
  (∀ key termData,
     termData ∈ default [] (Run.dataByTerm
                  (processSources SUPPORTED_TYPES CSS_TYPES_INPUT dfnSources emptyRun) !! key) →
     ∃ entry, publicSupportedOrigin SUPPORTED_TYPES CSS_TYPES_INPUT dfnSources entry
              ∧ termData = TermData.of_entry entry ∧ key ∈ termKeys entry)
  ∧ (∀ key specData,
       specData ∈ default [] (Run.dataBySpec
                    (processSources SUPPORTED_TYPES CSS_TYPES_INPUT dfnSources emptyRun) !! key) →
       ∃ entry, publicSupportedOrigin SUPPORTED_TYPES CSS_TYPES_INPUT dfnSources entry
                ∧ specData = SpecData.of_entry entry
                ∧ key = ParsedDataEntry.shortname entry)
  ∧ (∀ source errorURIs entry,
       keep SUPPORTED_TYPES entry = false →
       entry ∉ fst (parseData SUPPORTED_TYPES CSS_TYPES_INPUT source errorURIs))
  ∧ (∀ source errorURIs,
       fst (parseData SUPPORTED_TYPES CSS_TYPES_INPUT source errorURIs)
       = uniq (List.filter (keep SUPPORTED_TYPES) (termDataOf CSS_TYPES_INPUT source)))
  ∧ (∀ run source,
       let terms :=
         fst (parseData SUPPORTED_TYPES CSS_TYPES_INPUT source (Run.errorURIs run)) in
       Run.dataByTerm (processSource SUPPORTED_TYPES CSS_TYPES_INPUT run source)
       = updateDataByTerm terms (Run.dataByTerm run)
       ∧ Run.dataBySpec (processSource SUPPORTED_TYPES CSS_TYPES_INPUT run source)
         = updateDataBySpec terms (Run.dataBySpec run))
  ∧ processSources sampleSupportedTypes sampleCssTypes [mixedSource] emptyRun
    = {| Run.dataByTerm := {[ "Event" := [TermData.of_entry eventEntry] ]};
         Run.dataBySpec := {[ "dom" := [SpecData.of_entry eventEntry] ]};
         Run.errorURIs := [] |}.
Proof.
  repeat split.
  - intros key termData H.
    apply processSources_byTerm_origin in H as [H | H]; [|assumption].
    cbn in H. rewrite lookup_empty in H. now apply elem_of_nil in H.
  - intros key specData H.
    apply processSources_bySpec_origin in H as [H | H]; [|assumption].
    cbn in H. rewrite lookup_empty in H. now apply elem_of_nil in H.
  - intros source errorURIs entry Hkeep Hin.
    apply parseData_elem in Hin as [_ Hin]. congruence.
Qed.

(** C7.  With [uniq] as the spec describes it, the parser's result has no
    entry twice and has the entries that pass the filter; an entry stands
    right after the distinct entries that precede its first occurrence, and
    a later occurrence of it changes nothing.  A source that holds the same
    definition twice yields one entry. *)
Theorem parseData_dedup
    (SUPPORTED_TYPES CSS_TYPES_INPUT : gset string)
    (source : DfnSource.t) (errorURIs : list string) :
  let filtered := List.filter (keep SUPPORTED_TYPES) (termDataOf CSS_TYPES_INPUT source) in
  let result := fst (parseData SUPPORTED_TYPES CSS_TYPES_INPUT source errorURIs) in
  NoDup result
  ∧ (∀ entry, entry ∈ result ↔ entry ∈ filtered)
  ∧ result `sublist_of` filtered
  ∧ (∀ before entry after,
       filtered = before ++ entry :: after → entry ∉ before →
       ∃ rest, result = uniq before ++ entry :: rest)
  ∧ (∀ before entry after,
       filtered = before ++ entry :: after → entry ∈ before →
       result = uniq (before ++ after))
  ∧ fst (parseData sampleSupportedTypes sampleCssTypes twiceSource errorURIs)
    = [eventEntry].
Proof.
  cbn zeta. unfold parseData. cbn [fst]. repeat split.
  - apply uniq_NoDup.
  - apply uniq_elem.
  - apply uniq_elem.
  - apply uniqFrom_sublist.
  - intros before entry after -> Hnot. rewrite uniq_first_occurrence by assumption.
    eauto.
  - intros before entry after -> Hin. now apply uniq_later_occurrence.
Qed.

(** C8, counterexample.  A method whose term has a parenthesized argument
    list that runs over two lines: the term is [set] followed by an opening
    parenthesis, four characters of which the third is a line feed, and a
    closing parenthesis.  The pattern of [updateDataByTerm] does not match
    it, and the index gets the entry's data under the term only: there is no
    second key. *)
Lemma method_with_line_break_has_one_key :
  ParsedDataEntry.type wrappedEntry = "method"
  ∧ ParsedDataEntry.term wrappedEntry
    = "set" +:+ "(" +:+ ("a," +:+ String JS.LF "b") +:+ ")" +:+ ""
  ∧ updateDataByTerm [wrappedEntry] ∅
    = {[ ParsedDataEntry.term wrappedEntry := [TermData.of_entry wrappedEntry] ]}
  ∧ updateDataByTerm [wrappedEntry] ∅ !! "set()" = None.
Proof. repeat split. Qed.

(** The same with the line separator U+2028 for the argument. *)
Lemma method_with_line_separator_has_one_key :
  ParsedDataEntry.type separatorEntry = "method"
  ∧ ParsedDataEntry.term separatorEntry = "put" +:+ "(" +:+ lineSeparator +:+ ")" +:+ ""
  ∧ updateDataByTerm [separatorEntry] ∅
    = {[ ParsedDataEntry.term separatorEntry := [TermData.of_entry separatorEntry] ]}
  ∧ updateDataByTerm [separatorEntry] ∅ !! "put()" = None.
Proof. repeat split. Qed.

(** C8, amended.  One step of the term aggregator, where an argument list
    is an opening parenthesis, then one or more characters none of which is a
    line terminator (LF, CR, U+2028, U+2029), then a closing parenthesis.
    The entry's data is appended under the entry's term.  When the type is
    method and the term contains an argument list it is appended once more,
    under the term with the argument list replaced by an empty pair of
    parentheses, which is another key; otherwise it is appended nowhere
    else.  An entry for the term foo(a, b) is found under that term and under
    foo(). *)
Theorem addByTerm_fan_out (data : DataByTerm) (entry : ParsedDataEntry.t) :
  let term := ParsedDataEntry.term entry in
  let termData := TermData.of_entry entry in
  (ParsedDataEntry.type entry = "method" ∧ hasArgumentList term →
   JS.replaceArgs term ≠ term
   ∧ (∃ before args rest,
        term = before +:+ "(" +:+ args +:+ ")" +:+ rest
        ∧ args ≠ "" ∧ noLineTerminator args = true
        ∧ JS.replaceArgs term = before +:+ "()" +:+ rest)
   ∧ ∀ key, default [] (addByTerm data entry !! key)
            = default [] (data !! key)
              ++ (if decide (key = term ∨ key = JS.replaceArgs term)
                  then [termData] else []))
  ∧ (¬ (ParsedDataEntry.type entry = "method" ∧ hasArgumentList term) →
     ∀ key, default [] (addByTerm data entry !! key)
            = default [] (data !! key) ++ (if decide (key = term) then [termData] else []))
  ∧ updateDataByTerm [fooEntry] ∅ !! "foo(a, b)" = Some [TermData.of_entry fooEntry]
  ∧ updateDataByTerm [fooEntry] ∅ !! "foo()" = Some [TermData.of_entry fooEntry]
  ∧ updateDataByTerm [eventEntry] ∅ = {[ "Event" := [TermData.of_entry eventEntry] ]}.
Proof.
  cbn zeta.
  assert (Hkeys : ParsedDataEntry.type entry = "method"
                  ∧ hasArgumentList (ParsedDataEntry.term entry)
                  ↔ String.eqb (ParsedDataEntry.type entry) "method"
                    && JS.testArgs (ParsedDataEntry.term entry) = true).
  { now rewrite andb_true_iff, String.eqb_eq, testArgs_iff. }
  split; [|split; [|repeat split]].
  - intros H. pose proof H as [_ Hargs]. apply testArgs_iff in Hargs.
    apply Hkeys in H. repeat split.
    + now apply replaceArgs_ne.
    + now apply replaceArgs_shape.
    + intros key. rewrite addByTerm_elements. unfold termKeys. rewrite H.
      f_equal. apply decide_ext.
      rewrite !elem_of_cons, elem_of_nil. tauto.
  - intros H key. rewrite addByTerm_elements. unfold termKeys.
    destruct (String.eqb _ _ && JS.testArgs _); [exfalso; apply H, Hkeys; reflexivity|].
    f_equal. apply decide_ext. apply list_elem_of_singleton.
Qed.

(** C9, counterexample.  An entry of the specification css-cascade-4, of the
    series css-cascade: the index has nothing under the specification's
    shortname; the entry's data is under the series shortname, and it holds the
    specification's shortname. *)
Lemma updateDataBySpec_not_keyed_by_spec :
  ParsedDataEntry.spec cascadeEntry = "css-cascade-4"
  ∧ ParsedDataEntry.shortname cascadeEntry = "css-cascade"
  ∧ updateDataBySpec [cascadeEntry] ∅ !! "css-cascade-4" = None
  ∧ updateDataBySpec [cascadeEntry] ∅ !! "css-cascade"
    = Some [SpecData.of_entry cascadeEntry]
  ∧ SpecData.spec (SpecData.of_entry cascadeEntry) = "css-cascade-4".
Proof. repeat split. Qed.

(** C9, amended.  The aggregator appends each entry's data, which is the
    entry without [shortname] and [isExported], under the entry's [shortname],
    and that is the series shortname the mapper was given; the data keeps the
    specification's shortname in [spec].  Under a key the index gains the data
    of the entries with that [shortname], one element each, in their order,
    after what was there; a key is present afterwards when it was present
    or an entry has it as [shortname]. *)
Theorem updateDataBySpec_by_series
    (terms : list ParsedDataEntry.t) (data : DataBySpec) (key : string) :
  default [] (updateDataBySpec terms data !! key)
  = default [] (data !! key)
    ++ map SpecData.of_entry
         (filter (λ entry, ParsedDataEntry.shortname entry = key) terms)
  ∧ (is_Some (updateDataBySpec terms data !! key)
     ↔ is_Some (data !! key)
       ∨ ∃ entry, entry ∈ terms ∧ ParsedDataEntry.shortname entry = key)
  ∧ (∀ CSS_TYPES_INPUT dfn term spec series specurl,
       ParsedDataEntry.shortname
         (mapDefinition CSS_TYPES_INPUT dfn term spec series specurl) = series
       ∧ SpecData.spec
           (SpecData.of_entry (mapDefinition CSS_TYPES_INPUT dfn term spec series specurl))
         = spec).
Proof.
  split; [apply updateDataBySpec_elements|].
  split; [apply updateDataBySpec_is_Some|].
  intros. split; reflexivity.
Qed.

(** ** More on the normalizer and the mapper *)

(** X1.  For the kind method the normalized term always ends with a closing
    parenthesis and is never empty; it is the term itself when the term ends
    with a closing parenthesis and the term followed by an empty pair of
    parentheses otherwise, and these two cases exclude each other. *)
Theorem normalizeTerm_method_closed (term : string) :
  JS.endsWith (normalizeTerm term "method") ")" = true
  ∧ normalizeTerm term "method" ≠ ""
  ∧ (normalizeTerm term "method" = term ↔ JS.endsWith term ")" = true)
  ∧ (normalizeTerm term "method" = term +:+ "()" ↔ JS.endsWith term ")" = false).
Proof.
  rewrite normalizeTerm_method.
  assert (Hgrow : term +:+ "()" ≠ term).
  { intros H. apply (f_equal String.length) in H.
    rewrite str_length_app in H. simpl in H. lia. }
  destruct (JS.endsWith term ")") eqn:Hends.
  - repeat split; try congruence.
    intros ->. discriminate Hends.
  - repeat split; try congruence.
    + apply endsWith_app_parens.
    + intros H. apply (f_equal String.length) in H.
      rewrite str_length_app in H. simpl in H. lia.
Qed.

(** X2.  For the kind enum-value, normalizing a value written between two
    double quotes gives the value back, whatever the value is; and the terms
    that normalization leaves as they are are those with no double quote at
    either end. *)
Theorem normalizeTerm_enum_unquotes (value : string) :
  normalizeTerm (quote +:+ value +:+ quote) "enum-value" = value
  ∧ (normalizeTerm value "enum-value" = value ↔ quoteFree value).
Proof.
  rewrite !normalizeTerm_enum. split.
  - rewrite stripLeadingQuote_app. apply stripTrailingQuote_app.
  - apply stripQuotes_fix.
Qed.

Lemma includes_true_iff (s t : string) : includes s t = true ↔ occursIn t s.
Proof.
  unfold occursIn. induction s as [|c r IH].
  - cbn [includes]. rewrite orb_false_r, prefix_true_iff. split.
    + intros [b Hb]. now exists "", b.
    + intros (a & b & H). destruct a; [|discriminate]. now exists b.
  - cbn [includes]. rewrite orb_true_iff, prefix_true_iff, IH. split.
    + intros [[b Hb] | (a & b & ->)]; [now exists "", b | now exists (String c a), b].
    + intros ([|d a] & b & H).
      * left. now exists b.
      * right. rewrite str_app_cons in H. injection H as _ ->. now exists a, b.
Qed.

(** The replacement is made at the leftmost occurrence. *)
Lemma replace_leftmost (s pat rep : string) :
  occursIn pat s →
  ∃ a b, s = a +:+ pat +:+ b
         ∧ JS.replace s pat rep = a +:+ rep +:+ b
         ∧ ∀ a' b', s = a' +:+ pat +:+ b' → String.length a ≤ String.length a'.
Proof.
  induction s as [|c r IH]; intros Hocc; rewrite replace_unfold.
  - destruct Hocc as (a & b & Hs). destruct a; [|discriminate].
    rewrite str_app_nil_l in Hs.
    destruct pat; [|discriminate]. destruct b; [|discriminate].
    exists "", "". repeat split. intros; simpl; lia.
  - destruct (String.prefix pat (String c r)) eqn:Hp.
    + apply prefix_true_iff in Hp as [b Hb]. exists "", b.
      repeat split; [assumption | | intros; simpl; lia].
      rewrite !str_app_nil_l. f_equal. rewrite Hb. now rewrite slice_app.
    + assert (Hno : ∀ b, String c r ≠ pat +:+ b).
      { intros b Hb.
        rewrite (proj2 (prefix_true_iff pat (String c r))) in Hp by now exists b.
        discriminate. }
      destruct Hocc as (a & b & Hs). destruct a as [|d a].
      * now apply Hno in Hs.
      * rewrite str_app_cons in Hs. injection Hs as <- Hr.
        destruct IH as (a0 & b0 & Hr0 & Hrep & Hmin); [now exists a, b|].
        exists (String c a0), b0. repeat split.
        -- now rewrite str_app_cons, <- Hr0.
        -- now rewrite Hrep.
        -- intros [|d' a'] b' H'; [now apply Hno in H'|].
           rewrite str_app_cons in H'. injection H' as _ H'.
           apply Hmin in H'. simpl. lia.
Qed.

(** X3.  When the reference starts with the URL of the specification, the
    reference is the URL followed by the [uri] of the mapped entry: a consumer
    gets the reference back by putting the URL in front. *)
Theorem mapDefinition_uri_rebuilds (CSS_TYPES_INPUT : gset string) (dfn : WebrefDfn.t)
    (term spec series specurl : string) :
  JS.startsWith (WebrefDfn.href dfn) specurl = true →
  specurl +:+ ParsedDataEntry.uri
                (mapDefinition CSS_TYPES_INPUT dfn term spec series specurl)
  = WebrefDfn.href dfn.
Proof.
  intros H. apply prefix_true_iff in H as [fragment Hf].
  cbn [mapDefinition ParsedDataEntry.uri]. rewrite Hf. now rewrite replace_prefix.
Qed.

Lemma mapDefinition_uri_rebuilds_witness :
  JS.startsWith (WebrefDfn.href eventDfn) domURL = true
  ∧ domURL +:+ ParsedDataEntry.uri eventEntry = WebrefDfn.href eventDfn.
Proof.
  split; [reflexivity|].
  apply (mapDefinition_uri_rebuilds sampleCssTypes eventDfn "Event" "dom" "dom" domURL).
  reflexivity.
Defined.

(** X4.  The [uri] of a mapped entry is the reference when the URL of the
    specification occurs nowhere in it; otherwise it is the reference with the
    leftmost occurrence of the URL cut out, wherever that occurrence stands. *)
Theorem mapDefinition_uri_leftmost (CSS_TYPES_INPUT : gset string) (dfn : WebrefDfn.t)
    (term spec series specurl : string) :
  let href := WebrefDfn.href dfn in
  let uri :=
    ParsedDataEntry.uri (mapDefinition CSS_TYPES_INPUT dfn term spec series specurl) in
  (includes href specurl = false ∧ uri = href)
  ∨ (∃ a b, href = a +:+ specurl +:+ b
            ∧ uri = a +:+ b
            ∧ ∀ a' b', href = a' +:+ specurl +:+ b' →
                       String.length a ≤ String.length a').
Proof.
  cbn zeta. cbn [mapDefinition ParsedDataEntry.uri].
  destruct (includes (WebrefDfn.href dfn) specurl) eqn:Hinc.
  - right. apply includes_true_iff in Hinc.
    destruct (replace_leftmost _ _ "" Hinc) as (a & b & Hs & Hrep & Hmin).
    exists a, b. repeat split; [assumption | | assumption].
    now rewrite Hrep, str_app_nil_l.
  - left. split; [reflexivity|]. apply replace_absent.
    intros Hocc. apply includes_true_iff in Hocc. congruence.
Qed.

(** ** The registry *)

Section Registry.
Variable readDfns : string → list WebrefDfn.t.
Implicit Types (entry : SpecsJSON.t) (data : list SpecsJSON.t).


Lemma addEntry_snd (specMap : gmap string SpecInfo.t) (dfnSources : list DfnSource.t) entry :
  snd (addEntry readDfns (specMap, dfnSources) entry)
  = dfnSources ++ option_list (entrySource readDfns entry).
Proof.
  unfold addEntry, entrySource. cbn [snd].
  destruct (SpecsJSON.dfns entry) as [name|]; [destruct (truthy name)|];
    cbn [option_list]; now rewrite ?app_nil_r.
Qed.

Lemma addEntry_fst (specMap : gmap string SpecInfo.t) (dfnSources : list DfnSource.t) entry :
  fst (addEntry readDfns (specMap, dfnSources) entry)
  = <[SpecsJSON.shortname entry := specInfoOf entry]> specMap.
Proof. reflexivity. Qed.

Lemma fold_addEntry_snd data (acc : gmap string SpecInfo.t * list DfnSource.t) :
  snd (fold_left (addEntry readDfns) data acc)
  = snd acc ++ omap (entrySource readDfns) data.
Proof.
  revert acc. induction data as [|entry data IH]; intros [specMap dfnSources].
  - cbn. now rewrite app_nil_r.
  - cbn [fold_left]. rewrite IH, addEntry_snd. cbn [snd].
    rewrite <- app_assoc. f_equal.
    cbn [omap list_omap]. now destruct (entrySource readDfns entry).
Qed.

Lemma fold_addEntry_fst data (acc : gmap string SpecInfo.t * list DfnSource.t)
    (key : string) :
  fst (fold_left (addEntry readDfns) data acc) !! key
  = match last (filter (λ entry, SpecsJSON.shortname entry = key) data) with
    | Some entry => Some (specInfoOf entry)
    | None => fst acc !! key
    end.
Proof.
  revert acc. induction data as [|entry data IH]; intros [specMap dfnSources].
  - reflexivity.
  - cbn [fold_left]. rewrite IH, addEntry_fst, filter_cons. cbn [fst].
    destruct (decide (SpecsJSON.shortname entry = key)) as [<-|Hne].
    + rewrite last_cons, lookup_insert_eq.
      now destruct (last (filter _ data)).
    + now rewrite lookup_insert_ne.
Qed.

End Registry.

(** X5.  The sources that [getSpecsData] returns are made of the registry
    entries that name a definitions file (a non-empty name), one source per
    such entry, in the order of the registry; an entry without a file gives
    no source. *)
Theorem getSpecsData_sources (readDfns : string → list WebrefDfn.t)
    (data : list SpecsJSON.t) :
  snd (getSpecsData readDfns data) = omap (entrySource readDfns) data.
Proof. unfold getSpecsData. now rewrite fold_addEntry_snd. Qed.

(** X6.  The spec map that [getSpecsData] returns has, under a shortname, the
    details of the last registry entry with that shortname (a later entry
    replaces an earlier one), and nothing under a shortname no entry has; the
    details found under a key carry that key as their shortname. *)
Theorem getSpecsData_specMap (readDfns : string → list WebrefDfn.t)
    (data : list SpecsJSON.t) (key : string) :
  fst (getSpecsData readDfns data) !! key
  = specInfoOf <$> last (filter (λ entry, SpecsJSON.shortname entry = key) data)
  ∧ (∀ info, fst (getSpecsData readDfns data) !! key = Some info →
             SpecInfo.shortname info = key).
Proof.
  assert (H : fst (getSpecsData readDfns data) !! key
              = specInfoOf <$> last (filter (λ entry, SpecsJSON.shortname entry = key) data)).
  { unfold getSpecsData. rewrite fold_addEntry_fst. cbn [fst].
    destruct (last _); [reflexivity | apply lookup_empty]. }
  split; [exact H|]. intros info. rewrite H.
  destruct (last _) as [entry|] eqn:Hlast; [|discriminate].
  intros [= <-]. apply last_Some_elem_of, list_elem_of_filter in Hlast as [Hk _].
  exact Hk.
Qed.

Section Urls.
Implicit Types (set : list string) (x y : string).







End Urls.


(** ** More on the two indexes *)

Section IndexFacts.
Implicit Types (entry : ParsedDataEntry.t) (terms : list ParsedDataEntry.t).

Lemma default_nil_Some {A : Type} (o : option (list A)) (l : list A) :
  is_Some o → default [] o = l → o = Some l.
Proof. intros [l' ->] H. simpl in H. now subst. Qed.

Lemma addByTerm_is_Some (data : DataByTerm) entry (key : string) :
  is_Some (addByTerm data entry !! key)
  ↔ is_Some (data !! key) ∨ key ∈ termKeys entry.
Proof.
  unfold addByTerm, termKeys. cbn zeta.
  change (TermData.type (TermData.of_entry entry)) with (ParsedDataEntry.type entry).
  destruct (String.eqb _ _ && JS.testArgs _).
  - rewrite !push_is_Some, !elem_of_cons, elem_of_nil. intuition congruence.
  - rewrite push_is_Some, list_elem_of_singleton. intuition congruence.
Qed.

Lemma updateDataByTerm_is_Some terms (data : DataByTerm) (key : string) :
  is_Some (updateDataByTerm terms data !! key)
  ↔ is_Some (data !! key) ∨ ∃ entry, entry ∈ terms ∧ key ∈ termKeys entry.
Proof.
  revert data. induction terms as [|entry terms IH]; intros data.
  - simpl. split; [now left | intros [H | (e & He & _)]; [assumption|]].
    now apply elem_of_nil in He.
  - rewrite updateDataByTerm_cons, IH, addByTerm_is_Some. split.
    + intros [[H | H] | (e & He & Hk)].
      * now left.
      * right. exists entry. split; [apply elem_of_cons; now left | assumption].
      * right. exists e. split; [apply elem_of_cons; now right | assumption].
    + intros [H | (e & He & Hk)]; [tauto|].
      apply elem_of_cons in He as [-> | He]; [tauto|]. right. now exists e.
Qed.

(** A list under a key stays there and only grows at its end. *)
Lemma updateDataByTerm_extends terms (data : DataByTerm) (key : string) l :
  data !! key = Some l →
  updateDataByTerm terms data !! key
  = Some (l ++ map TermData.of_entry (filter (λ entry, key ∈ termKeys entry) terms)).
Proof.
  intros H. apply default_nil_Some.
  - apply updateDataByTerm_is_Some. left. now rewrite H.
  - now rewrite updateDataByTerm_elements, H.
Qed.

Lemma updateDataBySpec_extends terms (data : DataBySpec) (key : string) l :
  data !! key = Some l →
  updateDataBySpec terms data !! key
  = Some (l ++ map SpecData.of_entry
                 (filter (λ entry, ParsedDataEntry.shortname entry = key) terms)).
Proof.
  intros H. apply default_nil_Some.
  - apply updateDataBySpec_is_Some. left. now rewrite H.
  - now rewrite updateDataBySpec_elements, H.
Qed.

Lemma filter_nonempty {A : Type} (P : A → Prop) `{!∀ x, Decision (P x)}
    (l : list A) (x : A) :
  x ∈ l → P x → filter P l ≠ [].
Proof.
  intros Hin HP Hnil.
  assert (Hx : x ∈ filter P l) by now apply list_elem_of_filter.
  rewrite Hnil in Hx. now apply elem_of_nil in Hx.
Qed.

Lemma updateDataByTerm_no_empty terms (data : DataByTerm) :
  (∀ key, data !! key ≠ Some []) →
  ∀ key, updateDataByTerm terms data !! key ≠ Some [].
Proof.
  intros Hdata key Hnew.
  assert (Hsome : is_Some (updateDataByTerm terms data !! key)) by now rewrite Hnew.
  pose proof (updateDataByTerm_elements terms data key) as Hel.
  rewrite Hnew in Hel. cbn [default] in Hel.
  symmetry in Hel. apply app_eq_nil in Hel as [Hold Hadd].
  apply updateDataByTerm_is_Some in Hsome as [[l Hl] | (e & He & Hk)].
  - rewrite Hl in Hold. cbn in Hold. subst l. now apply (Hdata key).
  - apply map_eq_nil in Hadd. revert Hadd. now apply (filter_nonempty _ _ e).
Qed.

Lemma updateDataBySpec_no_empty terms (data : DataBySpec) :
  (∀ key, data !! key ≠ Some []) →
  ∀ key, updateDataBySpec terms data !! key ≠ Some [].
Proof.
  intros Hdata key Hnew.
  assert (Hsome : is_Some (updateDataBySpec terms data !! key)) by now rewrite Hnew.
  pose proof (updateDataBySpec_elements terms data key) as Hel.
  rewrite Hnew in Hel. cbn [default] in Hel.
  symmetry in Hel. apply app_eq_nil in Hel as [Hold Hadd].
  apply updateDataBySpec_is_Some in Hsome as [[l Hl] | (e & He & Hk)].
  - rewrite Hl in Hold. cbn in Hold. subst l. now apply (Hdata key).
  - apply map_eq_nil in Hadd. revert Hadd. now apply (filter_nonempty _ _ e).
Qed.

Lemma filter_Forall_all {A : Type} (P : A → Prop) `{!∀ x, Decision (P x)} (l : list A) :
  Forall P l → filter P l = l.
Proof.
  induction 1 as [|x l Hx Hl IH]; [reflexivity|].
  rewrite filter_cons, decide_True by assumption. now rewrite IH.
Qed.

Lemma filter_Forall_none {A : Type} (P : A → Prop) `{!∀ x, Decision (P x)} (l : list A) :
  Forall (λ x, ¬ P x) l → filter P l = [].
Proof.
  induction 1 as [|x l Hx Hl IH]; [reflexivity|].
  now rewrite filter_cons, decide_False by assumption.
Qed.

End IndexFacts.

(** X8.  Both aggregators only append: a list that is in an index under a key
    is still under that key afterwards, as a prefix of the new list, and what
    follows it is the data of the entries that belong under the key, in the
    order of the entries. *)
Theorem aggregators_only_append (terms : list ParsedDataEntry.t)
    (byTerm : DataByTerm) (bySpec : DataBySpec) (key : string) :
  (∀ l, byTerm !! key = Some l →
        updateDataByTerm terms byTerm !! key
        = Some (l ++ map TermData.of_entry
                       (filter (λ entry, key ∈ termKeys entry) terms)))
  ∧ (∀ l, bySpec !! key = Some l →
          updateDataBySpec terms bySpec !! key
          = Some (l ++ map SpecData.of_entry
                         (filter (λ entry, ParsedDataEntry.shortname entry = key) terms)))
  ∧ (byTerm !! key = None →
     (∀ entry, entry ∈ terms → key ∉ termKeys entry) →
     updateDataByTerm terms byTerm !! key = None)
  ∧ (bySpec !! key = None →
     (∀ entry, entry ∈ terms → ParsedDataEntry.shortname entry ≠ key) →
     updateDataBySpec terms bySpec !! key = None).
Proof.
  split; [intros l; apply updateDataByTerm_extends|].
  split; [intros l; apply updateDataBySpec_extends|].
  split.
  - intros Hnone Hno. apply eq_None_not_Some.
    rewrite updateDataByTerm_is_Some, Hnone.
    intros [[x Hx] | (e & He & Hk)]; [discriminate | now apply (Hno e)].
  - intros Hnone Hno. apply eq_None_not_Some.
    rewrite updateDataBySpec_is_Some, Hnone.
    intros [[x Hx] | (e & He & Hk)]; [discriminate | now apply (Hno e)].
Qed.

(** ** More on the run over the sources *)

Section Pipeline.
Variables SUPPORTED_TYPES CSS_TYPES_INPUT : gset string.
Implicit Types (source : DfnSource.t) (run : Run.t) (dfnSources : list DfnSource.t).

Local Abbreviation parse := (parseData SUPPORTED_TYPES CSS_TYPES_INPUT).
Local Abbreviation step := (processSource SUPPORTED_TYPES CSS_TYPES_INPUT).
Local Abbreviation steps := (processSources SUPPORTED_TYPES CSS_TYPES_INPUT).
Local Abbreviation origin := (publicSupportedOrigin SUPPORTED_TYPES CSS_TYPES_INPUT).

Lemma processSources_byTerm_elements dfnSources run (key : string) :
  default [] (Run.dataByTerm (steps dfnSources run) !! key)
  = default [] (Run.dataByTerm run !! key)
    ++ flat_map
         (λ source,
            map TermData.of_entry
              (filter (λ entry, key ∈ termKeys entry) (fst (parse source []))))
         dfnSources.
Proof.
  revert run. induction dfnSources as [|source dfnSources IH]; intros run.
  - cbn. now rewrite app_nil_r.
  - rewrite processSources_cons, IH, processSource_dataByTerm,
      updateDataByTerm_elements.
    cbn [flat_map]. now rewrite <- app_assoc.
Qed.

Lemma processSources_bySpec_elements dfnSources run (key : string) :
  default [] (Run.dataBySpec (steps dfnSources run) !! key)
  = default [] (Run.dataBySpec run !! key)
    ++ flat_map
         (λ source,
            map SpecData.of_entry
              (filter (λ entry, ParsedDataEntry.shortname entry = key)
                 (fst (parse source []))))
         dfnSources.
Proof.
  revert run. induction dfnSources as [|source dfnSources IH]; intros run.
  - cbn. now rewrite app_nil_r.
  - rewrite processSources_cons, IH, processSource_dataBySpec,
      updateDataBySpec_elements.
    cbn [flat_map]. now rewrite <- app_assoc.
Qed.

Lemma processSources_no_empty dfnSources run :
  (∀ key, Run.dataByTerm run !! key ≠ Some [])
  ∧ (∀ key, Run.dataBySpec run !! key ≠ Some []) →
  (∀ key, Run.dataByTerm (steps dfnSources run) !! key ≠ Some [])
  ∧ (∀ key, Run.dataBySpec (steps dfnSources run) !! key ≠ Some []).
Proof.
  revert run. induction dfnSources as [|source dfnSources IH]; intros run H.
  - exact H.
  - rewrite processSources_cons. apply IH. destruct H as [Ht Hs]. split.
    + rewrite processSource_dataByTerm. now apply updateDataByTerm_no_empty.
    + rewrite processSource_dataBySpec. now apply updateDataBySpec_no_empty.
Qed.

Lemma origin_elem dfnSources (entry : ParsedDataEntry.t) :
  origin dfnSources entry
  ↔ ∃ source, source ∈ dfnSources ∧ entry ∈ fst (parse source []).
Proof.
  split.
  - intros (source & dfn & alias & Hs & H). exists source. split; [assumption|].
    apply parseData_origin. exists source, dfn, alias.
    split; [now apply list_elem_of_singleton | assumption].
  - intros (source & Hs & H). apply parseData_origin in H.
    revert H. apply publicSupportedOrigin_mono.
    intros x Hx. now apply list_elem_of_singleton in Hx as ->.
Qed.

(** What [parseData] returns carries the names of its source. *)
Lemma parseData_Forall source (errorURIs : list string) :
  Forall
    (λ entry,
       ParsedDataEntry.isExported entry = true
       ∧ ParsedDataEntry.type entry ∈ SUPPORTED_TYPES
       ∧ ParsedDataEntry.spec entry = DfnSource.spec source
       ∧ ParsedDataEntry.shortname entry = DfnSource.series source
       ∧ ParsedDataEntry.status entry = "current"
       ∧ ParsedDataEntry.for_ entry ≠ Some [])
    (fst (parse source errorURIs)).
Proof.
  apply Forall_forall. intros entry Hin.
  apply parseData_elem in Hin as [Hin Hkeep].
  apply termDataOf_elem in Hin as (dfn & alias & _ & _ & ->).
  unfold keep in Hkeep. apply andb_true_iff in Hkeep as [Hexp Hsup].
  apply has_true in Hsup.
  repeat split; try assumption.
  cbn [mapDefinition ParsedDataEntry.for_].
  destruct (WebrefDfn.for_ dfn); cbn; congruence.
Qed.

Lemma processSource_bySpec_local run source (key : string) :
  default [] (Run.dataBySpec (step run source) !! key)
  = default [] (Run.dataBySpec run !! key)
    ++ (if decide (key = DfnSource.series source)
        then map SpecData.of_entry (fst (parse source (Run.errorURIs run)))
        else []).
Proof.
  rewrite processSource_dataBySpec, updateDataBySpec_elements. f_equal.
  pose proof (parseData_Forall source (Run.errorURIs run)) as Hall.
  destruct (decide (key = DfnSource.series source)) as [->|Hne].
  - rewrite filter_Forall_all; [reflexivity|].
    eapply Forall_impl; [exact Hall|]. cbn. tauto.
  - rewrite filter_Forall_none; [reflexivity|].
    eapply Forall_impl; [exact Hall|]. cbn. intros e He. intuition congruence.
Qed.

End Pipeline.

(** X9.  After a run from the empty indexes, no key of either index holds
    an empty list: a key is created only when something is appended under
    it. *)
Theorem indexes_have_no_empty_list (SUPPORTED_TYPES CSS_TYPES_INPUT : gset string)
    (dfnSources : list DfnSource.t) (key : string) :
  Run.dataByTerm (processSources SUPPORTED_TYPES CSS_TYPES_INPUT dfnSources emptyRun) !! key
  ≠ Some []
  ∧ Run.dataBySpec (processSources SUPPORTED_TYPES CSS_TYPES_INPUT dfnSources emptyRun) !! key
    ≠ Some [].
Proof.
  assert (H := processSources_no_empty SUPPORTED_TYPES CSS_TYPES_INPUT dfnSources emptyRun).
  destruct H as [Ht Hs].
  - split; intros k; cbn; now rewrite lookup_empty.
  - split; [apply Ht | apply Hs].
Qed.

(** X10.  What the indexes hold after a run from the empty indexes, exactly:
    a piece of data is under a key of the term index when it is the data of
    an entry mapped from a public definition of a supported type in one of the
    sources and the key is the entry's term or, for a method whose term has
    arguments, the term without them; it is under a key of the index by
    shortname when it is the data of such an entry and the key is the series
    of the entry's source.  No such entry is left out. *)
Theorem indexes_hold_exactly (SUPPORTED_TYPES CSS_TYPES_INPUT : gset string)
    (dfnSources : list DfnSource.t) (key : string) :
  (∀ termData,
     termData ∈ default [] (Run.dataByTerm
                  (processSources SUPPORTED_TYPES CSS_TYPES_INPUT dfnSources emptyRun) !! key)
     ↔ ∃ entry, publicSupportedOrigin SUPPORTED_TYPES CSS_TYPES_INPUT dfnSources entry
                ∧ termData = TermData.of_entry entry ∧ key ∈ termKeys entry)
  ∧ (∀ specData,
       specData ∈ default [] (Run.dataBySpec
                    (processSources SUPPORTED_TYPES CSS_TYPES_INPUT dfnSources emptyRun) !! key)
       ↔ ∃ entry, publicSupportedOrigin SUPPORTED_TYPES CSS_TYPES_INPUT dfnSources entry
                  ∧ specData = SpecData.of_entry entry
                  ∧ key = ParsedDataEntry.shortname entry).
Proof.
  split.
  - intros termData. rewrite processSources_byTerm_elements.
    cbn [emptyRun Run.dataByTerm]. rewrite lookup_empty. cbn [default app].
    rewrite list_elem_of_In, in_flat_map. split.
    + intros (source & Hs & Hin). apply in_map_iff in Hin as (entry & <- & Hin).
      apply list_elem_of_In, list_elem_of_filter in Hin as [Hk Hin].
      exists entry. split; [|now split].
      apply origin_elem. exists source. now rewrite list_elem_of_In.
    + intros (entry & Ho & -> & Hk). apply origin_elem in Ho as (source & Hs & Hin).
      exists source. split; [now apply list_elem_of_In|].
      apply in_map_iff. exists entry. split; [reflexivity|].
      apply list_elem_of_In, list_elem_of_filter. now split.
  - intros specData. rewrite processSources_bySpec_elements.
    cbn [emptyRun Run.dataBySpec]. rewrite lookup_empty. cbn [default app].
    rewrite list_elem_of_In, in_flat_map. split.
    + intros (source & Hs & Hin). apply in_map_iff in Hin as (entry & <- & Hin).
      apply list_elem_of_In, list_elem_of_filter in Hin as [Hk Hin].
      exists entry. split; [|now split].
      apply origin_elem. exists source. now rewrite list_elem_of_In.
    + intros (entry & Ho & -> & ->). apply origin_elem in Ho as (source & Hs & Hin).
      exists source. split; [now apply list_elem_of_In|].
      apply in_map_iff. exists entry. split; [reflexivity|].
      apply list_elem_of_In, list_elem_of_filter. now split.
Qed.

(** X11.  The order of the occurrences.  Under a key, the run appends to what
    the index held the data of the first source's entries for that key, in the
    order [parseData] returned them, then those of the second source, and so
    on in the order of the sources; the same holds of the index by
    shortname. *)
Theorem indexes_follow_source_order (SUPPORTED_TYPES CSS_TYPES_INPUT : gset string)
    (dfnSources : list DfnSource.t) (run : Run.t) (key : string) :
  default [] (Run.dataByTerm
     (processSources SUPPORTED_TYPES CSS_TYPES_INPUT dfnSources run) !! key)
  = default [] (Run.dataByTerm run !! key)
    ++ flat_map
         (λ source,
            map TermData.of_entry
              (filter (λ entry, key ∈ termKeys entry)
                 (fst (parseData SUPPORTED_TYPES CSS_TYPES_INPUT source []))))
         dfnSources
  ∧ default [] (Run.dataBySpec
       (processSources SUPPORTED_TYPES CSS_TYPES_INPUT dfnSources run) !! key)
    = default [] (Run.dataBySpec run !! key)
      ++ flat_map
           (λ source,
              map SpecData.of_entry
                (filter (λ entry, ParsedDataEntry.shortname entry = key)
                   (fst (parseData SUPPORTED_TYPES CSS_TYPES_INPUT source []))))
           dfnSources.
Proof.
  split; [apply processSources_byTerm_elements | apply processSources_bySpec_elements].
Qed.

(** X12.  One source changes the index by shortname under one key only, the
    series of the source: all the entries [parseData] returns for the source
    are appended there, in their order, and every other key keeps its
    list. *)
Theorem source_fills_its_series_only (SUPPORTED_TYPES CSS_TYPES_INPUT : gset string)
    (run : Run.t) (source : DfnSource.t) (key : string) :
  default [] (Run.dataBySpec
     (processSource SUPPORTED_TYPES CSS_TYPES_INPUT run source) !! key)
  = default [] (Run.dataBySpec run !! key)
    ++ (if decide (key = DfnSource.series source)
        then map SpecData.of_entry
               (fst (parseData SUPPORTED_TYPES CSS_TYPES_INPUT source (Run.errorURIs run)))
        else []).
Proof. apply processSource_bySpec_local. Qed.

(** X13.  Every entry that [parseData] returns is exported, has a supported
    type, carries the shortname of its source as [spec] and the series of its
    source as [shortname], has the status current, and has either no [for] or
    a non-empty one. *)
Theorem parseData_entries (SUPPORTED_TYPES CSS_TYPES_INPUT : gset string)
    (source : DfnSource.t) (errorURIs : list string) :
  Forall
    (λ entry,
       ParsedDataEntry.isExported entry = true
       ∧ ParsedDataEntry.type entry ∈ SUPPORTED_TYPES
       ∧ ParsedDataEntry.spec entry = DfnSource.spec source
       ∧ ParsedDataEntry.shortname entry = DfnSource.series source
       ∧ ParsedDataEntry.status entry = "current"
       ∧ ParsedDataEntry.for_ entry ≠ Some [])
    (fst (parseData SUPPORTED_TYPES CSS_TYPES_INPUT source errorURIs)).
Proof. apply parseData_Forall. Qed.

(** ** More on the driver *)

Lemma mainAsync_resolved (SUPPORTED_TYPES CSS_TYPES_INPUT : gset string)
    (forceUpdate : option bool) (hasUpdated : bool) (input : Input.t) :
  mainAsync SUPPORTED_TYPES CSS_TYPES_INPUT forceUpdate (Git.Resolved hasUpdated) input
  = if negb (hasUpdated || default false forceUpdate) then Returns NothingToUpdate
    else
      match Input.registry input with
      | None => Throws RegistryFailed
      | Some data =>
          match List.find (isUnreadable input) (dfnsFiles data) with
          | Some file => Throws (ReadFailed (fst file))
          | None =>
              match List.find (isMalformed input) (dfnsFiles data) with
              | Some file => Throws (ProcessingFailed (snd file))
              | None =>
                  if Input.writable input then
                    let run :=
                      processSources SUPPORTED_TYPES CSS_TYPES_INPUT
                        (snd (getSpecsData (readDfnsOf input) data)) emptyRun in
                    Returns (Written (Run.dataByTerm run) (Run.dataBySpec run)
                               (fst (getSpecsData (readDfnsOf input) data)))
                  else Throws WriteFailed
              end
          end
      end.
Proof.
  unfold mainAsync. rewrite negb_orb.
  destruct (negb hasUpdated && negb (default false forceUpdate)) eqn:Hskip; [reflexivity|].
  destruct (Input.registry input) as [data|]; [|reflexivity].
  destruct (List.find (isUnreadable input) (dfnsFiles data)); [reflexivity|].
  destruct (List.find (isMalformed input) (dfnsFiles data)); [reflexivity|].
  cbn zeta. rewrite main_skips_or_writes, Hskip. cbn zeta. cbn [wroteArtifacts].
  now destruct (Input.writable input).
Qed.

(** X14.  How [main] ends, with its failures.  It returns false exactly when
    the update resolved to false and is not forced, before any read.  It
    returns after writing exactly when the update resolved, the input was
    updated or the update is forced, the registry and every definitions file
    could be read, [parseData] threw on none, and the writes succeeded; what
    it writes is then the spec map of the registry and the two indexes built
    from the registry's sources, from empty indexes.  It never leaves through
    the exit at the test of the error list.  A rejected update makes it throw
    with the reason of the rejection. *)
Theorem main_outcome (SUPPORTED_TYPES CSS_TYPES_INPUT : gset string)
    (forceUpdate : option bool) (sync : Git.promise) (input : Input.t) :
  let result := mainAsync SUPPORTED_TYPES CSS_TYPES_INPUT forceUpdate sync input in
  (result = Returns NothingToUpdate
   ↔ sync = Git.Resolved false ∧ default false forceUpdate = false)
  ∧ (∀ xref specs specmap,
       result = Returns (Written xref specs specmap)
       ↔ ∃ hasUpdated data,
           sync = Git.Resolved hasUpdated
           ∧ hasUpdated || default false forceUpdate = true
           ∧ Input.registry input = Some data
           ∧ List.find (isUnreadable input) (dfnsFiles data) = None
           ∧ List.find (isMalformed input) (dfnsFiles data) = None
           ∧ Input.writable input = true
           ∧ xref = Run.dataByTerm
                      (processSources SUPPORTED_TYPES CSS_TYPES_INPUT
                         (snd (getSpecsData (readDfnsOf input) data)) emptyRun)
           ∧ specs = Run.dataBySpec
                       (processSources SUPPORTED_TYPES CSS_TYPES_INPUT
                          (snd (getSpecsData (readDfnsOf input) data)) emptyRun)
           ∧ specmap = fst (getSpecsData (readDfnsOf input) data))
  ∧ (∀ code errorURIs, result ≠ Returns (Exit code errorURIs))
  ∧ (∀ why, sync = Git.Rejected why → result = Throws (SyncFailed why))
  ∧ (sync = Git.Pending → result = Waits).
Proof.
  cbn zeta. destruct sync as [|hasUpdated|why].
  - cbn. repeat split; try discriminate; try (intros [? _]; discriminate).
    intros (? & ? & ? & _). discriminate.
  - rewrite mainAsync_resolved.
    destruct (hasUpdated || default false forceUpdate) eqn:Hgo; cbn [negb].
    + apply orb_true_iff in Hgo.
      destruct (Input.registry input) as [data|] eqn:Hreg;
        [destruct (List.find (isUnreadable input) (dfnsFiles data)) eqn:Hu;
         [|destruct (List.find (isMalformed input) (dfnsFiles data)) eqn:Hm;
           [|destruct (Input.writable input) eqn:Hw]]|];
        (split; [split; [discriminate|];
                 intros [[= ->] Hf]; destruct Hgo as [?|?]; congruence|]);
        (split; [|repeat split; discriminate]);
        intros xref specs specmap; (split; [try discriminate|]).
      * intros (h & d & [= <-] & _ & [= <-] & Hu' & _). congruence.
      * intros (h & d & [= <-] & _ & [= <-] & _ & Hm' & _). congruence.
      * cbn zeta. intros [= <- <- <-]. exists hasUpdated, data.
        repeat split; try assumption. now apply orb_true_iff.
      * intros (h & d & [= <-] & _ & [= <-] & _ & _ & _ & -> & -> & ->). reflexivity.
      * intros (h & d & [= <-] & _ & [= <-] & _ & _ & Hw' & _). congruence.
      * intros (h & d & [= <-] & _ & Hreg' & _). congruence.
    + apply orb_false_iff in Hgo as [-> Hf]. repeat split; try discriminate; auto.
      intros (h & d & [= <-] & Hgo & _). rewrite Hf in Hgo. discriminate.
  - cbn. repeat split; try discriminate; try (intros [? _]; discriminate).
    + intros (? & ? & ? & _). discriminate.
    + now intros ? [= ->].
Qed.

Section GitFacts.
Import Git.
Implicit Types (st : state) (events : list event).

Lemma run_app events1 events2 st :
  run (events1 ++ events2) st = run events2 (run events1 st).
Proof. apply fold_left_app. Qed.

Lemma settle_settled (p new : promise) : p ≠ Pending → settle p new = p.
Proof. now destruct p. Qed.

Lemma handle_settled st (ev : event) :
  settled st ≠ Pending → settled (handle st ev) = settled st.
Proof. intros H. destruct ev; cbn; now rewrite ?settle_settled. Qed.

Lemma run_settled events st :
  settled st ≠ Pending → settled (run events st) = settled st.
Proof.
  revert st. induction events as [|ev events IH]; intros st H; [reflexivity|].
  cbn [run fold_left]. fold (run events (handle st ev)).
  rewrite IH; rewrite handle_settled; auto.
Qed.

(** While only data arrives the promise stays as it is and the variable
    follows the last chunk. *)
Lemma run_data (chunks : list string) st :
  run (map OnData chunks) st
  = {| hasUpdated :=
         match last chunks with
         | Some data => negb (includes data "Already up to date")
         | None => hasUpdated st
         end;
       settled := settled st |}.
Proof.
  revert st. induction chunks as [|data chunks IH]; intros st.
  - now destruct st.
  - cbn [map run fold_left]. fold (run (map OnData chunks) (handle st (OnData data))).
    rewrite IH, last_cons. cbn. now destruct (last chunks).
Qed.

End GitFacts.

(** X15.  The promise of [updateInputSource] after the process wrote some
    chunks of output and then ended.  With exit code 0 it resolves to whether
    the last chunk lacks the words Already up to date, and to true when
    there was no output: earlier chunks do not count.  With another exit
    code, or none, it is rejected with that code; an error event rejects it
    too; and while only output has arrived it is pending. *)
Theorem updateInputSource_result (chunks : list string) :
  Git.updateInputSource (map Git.OnData chunks ++ [Git.OnExit (Some 0)])
  = Git.Resolved
      (match last chunks with
       | Some data => negb (includes data "Already up to date")
       | None => true
       end)
  ∧ (∀ code, code ≠ Some 0 →
       Git.updateInputSource (map Git.OnData chunks ++ [Git.OnExit code])
       = Git.Rejected (Git.ExitedWith code))
  ∧ (∀ message,
       Git.updateInputSource (map Git.OnData chunks ++ [Git.OnError message])
       = Git.Rejected (Git.SpawnError message))
  ∧ Git.updateInputSource (map Git.OnData chunks) = Git.Pending.
Proof.
  unfold Git.updateInputSource. rewrite !run_app, !run_data. repeat split.
  - intros code Hcode. rewrite run_app, run_data. cbn.
    destruct code as [[|n]|]; [congruence | reflexivity | reflexivity].
  - intros message. now rewrite run_app, run_data.
Qed.

(** X16.  The promise of [updateInputSource] settles once: after the events
    that settled it, no further event changes it. *)
Theorem updateInputSource_settles_once (before after : list Git.event) :
  Git.updateInputSource before ≠ Git.Pending →
  Git.updateInputSource (before ++ after) = Git.updateInputSource before.
Proof.
  unfold Git.updateInputSource. intros H. rewrite run_app. now apply run_settled.
Qed.

Lemma updateInputSource_settles_once_witness :
  Git.updateInputSource [Git.OnData "Already up to date."; Git.OnExit (Some 0)]
  ≠ Git.Pending
  ∧ Git.updateInputSource
      ([Git.OnData "Already up to date."; Git.OnExit (Some 0)]
         ++ [Git.OnData "Updating"; Git.OnError "late"; Git.OnExit (Some 1)])
    = Git.updateInputSource [Git.OnData "Already up to date."; Git.OnExit (Some 0)].
Proof.
  split; [discriminate|].
  apply (updateInputSource_settles_once
           [Git.OnData "Already up to date."; Git.OnExit (Some 0)]).
  discriminate.
Defined.

(** ** More on the key without arguments *)

Section Collapse.

Lemma matchDotsClose_no_rparen (s : string) :
  ¬ occursIn ")" s → JS.matchDotsClose s = None.
Proof.
  intros Hno. destruct (JS.matchDotsClose s) as [rest|] eqn:H; [|reflexivity].
  exfalso. apply Hno. apply matchDotsClose_sound in H as (a & -> & _).
  now exists a, rest.
Qed.

Lemma execArgs_no_rparen (s : string) : ¬ occursIn ")" s → JS.execArgs s = None.
Proof.
  intros Hno. destruct (JS.execArgs s) as [[before rest]|] eqn:H; [|reflexivity].
  exfalso. apply Hno. apply execArgs_sound in H as (args & -> & _).
  exists (before +:+ "(" +:+ args), rest. now rewrite !str_app_assoc.
Qed.

(** On one line, what follows a greedy match holds no closing parenthesis. *)
Lemma matchDotsClose_rest (s rest : string) :
  noLineTerminator s = true → JS.matchDotsClose s = Some rest → ¬ occursIn ")" rest.
Proof.
  induction s as [|c r IH]; [discriminate|].
  cbn [noLineTerminator JS.matchDotsClose]. intros Hlt.
  apply andb_true_iff in Hlt as [Hc Hr]. apply negb_true_iff in Hc. rewrite Hc.
  destruct (JS.matchDotsClose r) as [rest'|] eqn:Hm.
  - intros [= <-]. now apply IH.
  - destruct (Ascii.eqb c JS.rparen); [|discriminate].
    intros [= <-] (a & b & Hab).
    assert (Ha : noLineTerminator a = true).
    { rewrite Hab in Hr. now apply noLineTerminator_prefix in Hr. }
    destruct (matchDotsClose_complete a b Ha) as [x Hx].
    rewrite <- Hab in Hx. congruence.
Qed.

Lemma no_lparen_cons (c : ascii) (s : string) :
  c ≠ JS.lparen → ¬ occursIn "(" s → ¬ occursIn "(" (String c s).
Proof.
  intros Hc Hs ([|d a] & b & H).
  - rewrite str_app_nil_l in H. change ("(" +:+ b) with (String JS.lparen b) in H.
    congruence.
  - rewrite str_app_cons in H. injection H as _ H. apply Hs. now exists a, b.
Qed.

(** On one line, the match starts at the first opening parenthesis and ends
    at the last closing one. *)
Lemma execArgs_extent (s before rest : string) :
  noLineTerminator s = true → JS.execArgs s = Some (before, rest) →
  ¬ occursIn "(" before ∧ ¬ occursIn ")" rest.
Proof.
  revert before. induction s as [|c r IH]; intros before Hlt; [discriminate|].
  cbn [noLineTerminator] in Hlt. apply andb_true_iff in Hlt as [Hc Hr].
  rewrite execArgs_String.
  destruct (if Ascii.eqb c JS.lparen then JS.matchArgs r else None)
    as [rest'|] eqn:Hhead.
  - intros [= <- <-]. split.
    + intros ([|d a] & b & H); discriminate.
    + destruct (Ascii.eqb c JS.lparen); [|discriminate].
      destruct r as [|d r']; [discriminate|]. unfold JS.matchArgs in Hhead.
      pose proof Hr as Hr0.
      cbn [noLineTerminator] in Hr. apply andb_true_iff in Hr as [Hd Hr'].
      apply negb_true_iff in Hd. rewrite Hd in Hhead.
      now apply (matchDotsClose_rest r').
  - destruct (JS.execArgs r) as [[before' rest'']|] eqn:Hexec; [|discriminate].
    intros [= <- <-]. destruct (IH _ Hr eq_refl) as [Hb Hrest].
    split; [|assumption]. apply no_lparen_cons; [|assumption].
    intros ->. rewrite Ascii.eqb_refl in Hhead.
    apply execArgs_sound in Hexec as (args & Hs & Hne & Hargs).
    destruct (matchArgs_complete (before' +:+ "(" +:+ args) rest'') as [x Hx].
    + destruct before'; discriminate.
    + apply (noLineTerminator_prefix _ rest'').
      now rewrite !str_app_assoc, <- Hs.
    + rewrite !str_app_assoc, <- Hs in Hx. congruence.
Qed.

Lemma execArgs_skip (before s : string) :
  ¬ occursIn "(" before →
  JS.execArgs (before +:+ s)
  = match JS.execArgs s with
    | Some (b, rest) => Some (before +:+ b, rest)
    | None => None
    end.
Proof.
  induction before as [|c before IH]; intros Hno.
  - rewrite str_app_nil_l. now destruct (JS.execArgs s) as [[b rest]|].
  - rewrite str_app_cons, execArgs_String.
    destruct (Ascii.eqb_spec c JS.lparen) as [->|Hc].
    + exfalso. apply Hno. now exists "", before.
    + rewrite IH.
      * now destruct (JS.execArgs s) as [[b rest]|].
      * intros (a & b & ->). apply Hno. now exists (String c a), b.
Qed.

Lemma testArgs_collapsed (before rest : string) :
  ¬ occursIn "(" before → ¬ occursIn ")" rest →
  JS.testArgs (before +:+ "()" +:+ rest) = false.
Proof.
  intros Hb Hr. unfold JS.testArgs. rewrite execArgs_skip by assumption.
  change ("()" +:+ rest) with (String JS.lparen (String JS.rparen rest)).
  rewrite execArgs_String, Ascii.eqb_refl. unfold JS.matchArgs.
  rewrite lineTerminatorAt_rparen.
  rewrite matchDotsClose_no_rparen by assumption.
  rewrite execArgs_String.
  replace (Ascii.eqb JS.rparen JS.lparen) with false by reflexivity.
  now rewrite execArgs_no_rparen.
Qed.

End Collapse.

(** A term on two lines, each with an argument list. *)
Lemma twoLines_collapses_twice :
  let term := "f(a)" +:+ String (Ascii.ascii_of_nat 10) "(b)" in
  JS.replaceArgs (JS.replaceArgs term) ≠ JS.replaceArgs term.
Proof. vm_compute. discriminate. Qed.

(** The same with the line separator U+2028 between the two lists: the
    term has a line terminator, and it collapses twice. *)
Lemma lineSeparator_collapses_twice :
  let term := "f(a)" +:+ lineSeparator +:+ "(b)" in
  noLineTerminator term = false
  ∧ JS.replaceArgs (JS.replaceArgs term) ≠ JS.replaceArgs term.
Proof. split; [reflexivity | vm_compute; discriminate]. Qed.

(** X17.  For a term in which no line terminator stands (LF, CR, U+2028 or
    U+2029), the key without arguments has no argument list left: the
    pattern of [updateDataByTerm] does not match it, and removing the
    arguments a second time changes nothing. *)
Theorem replaceArgs_settles (term : string) :
  noLineTerminator term = true →
  JS.testArgs (JS.replaceArgs term) = false
  ∧ JS.replaceArgs (JS.replaceArgs term) = JS.replaceArgs term.
Proof.
  intros Hlt.
  assert (H : JS.testArgs (JS.replaceArgs term) = false).
  { unfold JS.replaceArgs.
    destruct (JS.execArgs term) as [[before rest]|] eqn:Hexec.
    - destruct (execArgs_extent _ _ _ Hlt Hexec) as [Hb Hr].
      now apply testArgs_collapsed.
    - unfold JS.testArgs. now rewrite Hexec. }
  split; [exact H | now apply replaceArgs_no_match].
Qed.

Lemma replaceArgs_settles_witness :
  noLineTerminator "foo(a, b)" = true
  ∧ JS.testArgs (JS.replaceArgs "foo(a, b)") = false
  ∧ JS.replaceArgs (JS.replaceArgs "foo(a, b)") = JS.replaceArgs "foo(a, b)".
Proof.
  split; [reflexivity|]. apply (replaceArgs_settles "foo(a, b)"). reflexivity.
Defined.

(** ** Repeated data in the term index *)

Lemma two_members {A : Type} (l : list A) (x y : A) :
  x ≠ y → x ∈ l → y ∈ l →
  ∃ a b c, l = a ++ x :: b ++ y :: c ∨ l = a ++ y :: b ++ x :: c.
Proof.
  intros Hne Hx Hy.
  apply list_elem_of_split in Hx as (a & b & ->).
  apply elem_of_app in Hy as [Hy | Hy].
  - apply list_elem_of_split in Hy as (a1 & a2 & ->).
    exists a1, a2, b. right. now rewrite <- app_assoc.
  - apply elem_of_cons in Hy as [-> | Hy]; [congruence|].
    apply list_elem_of_split in Hy as (b1 & b2 & ->).
    exists a, b1, b2. now left.
Qed.

(** X18.  The term index can hold the same data twice under a key, also
    when no entry is fed twice: two different entries that agree on all but
    their term, and share a key, are both appended under that key.  Such are
    two linking texts of one method that differ in their arguments: both
    land under the name followed by an empty pair of parentheses. *)
Theorem term_index_repeats_shared_key (terms : list ParsedDataEntry.t)
    (data : DataByTerm) (entry1 entry2 : ParsedDataEntry.t) (key : string) :
  entry1 ≠ entry2 → entry1 ∈ terms → entry2 ∈ terms →
  TermData.of_entry entry1 = TermData.of_entry entry2 →
  key ∈ termKeys entry1 → key ∈ termKeys entry2 →
  ∃ l1 l2 l3,
    default [] (updateDataByTerm terms data !! key)
    = l1 ++ TermData.of_entry entry1 :: l2 ++ TermData.of_entry entry1 :: l3.
Proof.
  intros Hne H1 H2 Heq Hk1 Hk2.
  rewrite updateDataByTerm_elements.
  destruct (two_members terms entry1 entry2 Hne H1 H2) as (a & b & c & [-> | ->]);
    rewrite !filter_app, !filter_cons, !filter_app, !filter_cons,
      !(decide_True (P := key ∈ termKeys entry1)),
      !(decide_True (P := key ∈ termKeys entry2)) by assumption;
    rewrite !map_app; cbn [map]; rewrite !map_app; cbn [map]; rewrite <- Heq;
    eexists (_ ++ _), _, _; rewrite <- app_assoc; reflexivity.
Qed.

Lemma term_index_repeats_shared_key_witness :
  let terms :=
    fst (parseData sampleSupportedTypes sampleCssTypes (sourceOf [overloadedDfn]) []) in
  let entry1 := mapDefinition sampleCssTypes overloadedDfn "bar(a)" "dom" "dom" domURL in
  let entry2 := mapDefinition sampleCssTypes overloadedDfn "bar(a, b)" "dom" "dom" domURL in
  NoDup terms
  ∧ entry1 ≠ entry2 ∧ entry1 ∈ terms ∧ entry2 ∈ terms
  ∧ TermData.of_entry entry1 = TermData.of_entry entry2
  ∧ "bar()" ∈ termKeys entry1 ∧ "bar()" ∈ termKeys entry2
  ∧ ∃ l1 l2 l3,
      default [] (updateDataByTerm terms ∅ !! "bar()")
      = l1 ++ TermData.of_entry entry1 :: l2 ++ TermData.of_entry entry1 :: l3.
Proof.
  cbn zeta.
  assert (Hne : mapDefinition sampleCssTypes overloadedDfn "bar(a)" "dom" "dom" domURL
                ≠ mapDefinition sampleCssTypes overloadedDfn "bar(a, b)" "dom" "dom" domURL)
    by (vm_compute; discriminate).
  assert (H1 : mapDefinition sampleCssTypes overloadedDfn "bar(a)" "dom" "dom" domURL
               ∈ fst (parseData sampleSupportedTypes sampleCssTypes
                        (sourceOf [overloadedDfn]) []))
    by (apply (bool_decide_unpack _); vm_compute; exact I).
  assert (H2 : mapDefinition sampleCssTypes overloadedDfn "bar(a, b)" "dom" "dom" domURL
               ∈ fst (parseData sampleSupportedTypes sampleCssTypes
                        (sourceOf [overloadedDfn]) []))
    by (apply (bool_decide_unpack _); vm_compute; exact I).
  assert (Hk1 : "bar()" ∈ termKeys
                  (mapDefinition sampleCssTypes overloadedDfn "bar(a)" "dom" "dom" domURL))
    by (apply (bool_decide_unpack _); vm_compute; exact I).
  assert (Hk2 : "bar()" ∈ termKeys
                  (mapDefinition sampleCssTypes overloadedDfn "bar(a, b)" "dom" "dom" domURL))
    by (apply (bool_decide_unpack _); vm_compute; exact I).
  split; [apply uniq_NoDup|].
  repeat (split; [assumption || reflexivity|]).
  exact (term_index_repeats_shared_key _ ∅ _ _ "bar()" Hne H1 H2 eq_refl Hk1 Hk2).
Defined.

(** ** More on the mapper and the parser *)

Lemma css_prefixed_other (type : string) :
  "css-" +:+ type ≠ "enum-value" ∧ "css-" +:+ type ≠ "method".
Proof. split; intros H; rewrite str_app_cons in H; discriminate. Qed.

(** X19.  A definition whose type is one of the CSS types is given the type
    with the prefix css-, and its linking text becomes the term as it is:
    the renamed type is neither enum-value nor method, so no quote is stripped
    and no parentheses are added.  A definition of any other type keeps its
    type. *)
Theorem mapDefinition_css_types (CSS_TYPES_INPUT : gset string) (dfn : WebrefDfn.t)
    (term spec series specurl : string) :
  let entry := mapDefinition CSS_TYPES_INPUT dfn term spec series specurl in
  (WebrefDfn.type dfn ∈ CSS_TYPES_INPUT →
   ParsedDataEntry.type entry = "css-" +:+ WebrefDfn.type dfn
   ∧ ParsedDataEntry.term entry = term)
  ∧ (WebrefDfn.type dfn ∉ CSS_TYPES_INPUT →
     ParsedDataEntry.type entry = WebrefDfn.type dfn
     ∧ ParsedDataEntry.term entry = normalizeTerm term (WebrefDfn.type dfn))
  ∧ ParsedDataEntry.term
      (mapDefinition sampleCssTypes propertyDfn (quote +:+ "quotes" +:+ quote)
         spec series specurl)
    = quote +:+ "quotes" +:+ quote.
Proof.
  cbn zeta. cbn [mapDefinition ParsedDataEntry.type ParsedDataEntry.term].
  unfold normalizedType, has. repeat split.
  - now rewrite bool_decide_eq_true_2.
  - rewrite bool_decide_eq_true_2 by assumption.
    destruct (css_prefixed_other (WebrefDfn.type dfn)). now apply normalizeTerm_other.
  - now rewrite bool_decide_eq_false_2.
  - now rewrite bool_decide_eq_false_2.
Qed.

Lemma termDataOf_length (CSS_TYPES_INPUT : gset string) (source : DfnSource.t) :
  length (termDataOf CSS_TYPES_INPUT source)
  = sum_list (map (λ dfn, length (WebrefDfn.linkingText dfn)) (DfnSource.dfns source)).
Proof.
  unfold termDataOf. induction (DfnSource.dfns source) as [|dfn dfns IH]; [reflexivity|].
  cbn [flat_map map sum_list sum_list_with]. rewrite length_app, length_map.
  cbn in IH. now rewrite IH.
Qed.

(** X20.  [parseData] returns at most one entry for each linking text of each
    definition of the source: a source without definitions, or whose
    definitions have no linking text, gives no entry. *)
Theorem parseData_length (SUPPORTED_TYPES CSS_TYPES_INPUT : gset string)
    (source : DfnSource.t) (errorURIs : list string) :
  length (fst (parseData SUPPORTED_TYPES CSS_TYPES_INPUT source errorURIs))
  ≤ sum_list (map (λ dfn, length (WebrefDfn.linkingText dfn)) (DfnSource.dfns source))
  ∧ (Forall (λ dfn, WebrefDfn.linkingText dfn = []) (DfnSource.dfns source) →
     fst (parseData SUPPORTED_TYPES CSS_TYPES_INPUT source errorURIs) = []).
Proof.
  assert (Hlen : length (fst (parseData SUPPORTED_TYPES CSS_TYPES_INPUT source errorURIs))
                 ≤ length (termDataOf CSS_TYPES_INPUT source)).
  { unfold parseData. cbn [fst]. etransitivity.
    - apply sublist_length, uniqFrom_sublist.
    - apply List.filter_length_le. }
  rewrite termDataOf_length in Hlen. split; [exact Hlen|].
  intros Hall. apply length_zero_iff_nil, Nat.le_0_r.
  etransitivity; [exact Hlen|]. apply Nat.le_0_r. clear Hlen.
  induction Hall as [|dfn dfns Hd _ IH]; [reflexivity|].
  cbn [map sum_list sum_list_with]. rewrite Hd. exact IH.
Qed.
